(** * AsyncRefCount: a model of [src/async-ref-count.ts]

    The class shares one lazily opened resource between many callers.  All
    of its code runs on one thread; callers interleave only at [await]
    points.  The model below is an event-labelled transition system:

    - the five private fields of the instance are the record [AsyncRefCount];
    - every promise and every [AbortController] the class creates lives in a
      store ([opens], [closes]) and is named by its index;
    - every call of [open()] or of a handle's [close()] is a task, suspended
      at one of the [await]s of the source or finished with an outcome;
    - an [event] is one synchronous block of the source (from a call or a
      resumption up to the next [await], or one promise reaction), or one
      action of the environment (the opener or the close implementation
      settling, a caller aborting its signal).

    [step] runs one event and [run] a list of them, so that every scenario
    can be evaluated.

    Scheduling.  A suspended call may resume at any later event once what it
    awaits has settled, and the [.catch] and [.finally] reactions of a close
    run as two separate events.  This allows every order in which the
    microtask queue can run the continuations, and more; what is proved for
    all runs holds for the real schedules.  A promise reaction that only
    settles the next promise of a chain is merged with the event before it.

    The environment.  The opener, the close functions and the listeners of
    the signals are code of the caller.  They act through events of their
    own ([OpenerSettles], [CloseSettles], [HookSettles], [AcquireLate]) and
    are taken not to call [open()] or [close()] from inside the synchronous
    block that calls them. *)

From stdpp Require Import base option list gmap.
From Stdlib Require Import ZArith.

Local Open Scope Z_scope.

(** ** Values *)

(** The two kinds of [AbortController] the class creates: one per call of the
    opener (line 147) and one per call of [#close] (line 96). *)
Inductive controller :=
  | OpenController (o : nat)
  | CloseController (k : nat).

(** JavaScript values that flow through the class.  [Data n] is any value or
    error object supplied from outside (resource values, close reasons,
    rejection reasons); the other constructors are the objects the class and
    the platform create themselves.  Equality is object identity. *)
Inductive val :=
  | Undefined
  | Data (n : nat)
  | AbortError (c : controller)   (* the DOMException of [c.abort()] *)
  | AlreadyClosed                 (* new Error('Already closed.') *)
  | CloseHookLocked               (* new Error('Close hook locked.') *)
  | TypeError.                    (* reading [.close] of [undefined] *)

Global Instance controller_eq_dec : EqDecision controller.
Proof. solve_decision. Defined.

Global Instance val_eq_dec : EqDecision val.
Proof. solve_decision. Defined.

(** ** Promises and abort signals *)

Inductive promise (A : Type) :=
  | Pending
  | Fulfilled (a : A)
  | Rejected (e : val).

Arguments Pending {A}.
Arguments Fulfilled {A} a.
Arguments Rejected {A} e.

Definition settled {A} (p : promise A) : bool :=
  match p with
  | Pending => false
  | _ => true
  end.

(** An [AbortSignal]: [None] while not aborted, [Some reason] afterwards. *)
Definition AbortSignal := option val.

(** [controller.abort(reason)]: the first abort wins; a missing reason is
    replaced by a fresh [AbortError]. *)
Definition abort (c : controller) (reason : val) (signal : AbortSignal) : AbortSignal :=
  match signal with
  | Some r => Some r
  | None => Some (if decide (reason = Undefined) then AbortError c else reason)
  end.

(** ** Types of the source *)

(** [ClosableValue]: the [close] function is named by a number; what it does
    when called is decided by the environment (see [event]). *)
Record ClosableValue := {
  value : val;
  close : nat;
}.

(** One call of the opener: its controller's signal and [#openPromise], the
    promise returned by [Promise.try(...).then(...)] on line 149. *)
Record OpenOp := {
  open_signal : AbortSignal;
  open_promise : promise ClosableValue;
}.

(** What the local variable [hookPromise] of [#close] refers to. *)
Inductive hook_promise :=
  | HookRaw        (* the promise of [Promise.withResolvers], line 106 *)
  | CatchOfClose   (* [closePromise.catch(...)], line 115 *)
  | CatchOfHook.   (* [hookPromise.catch(...)], line 117 *)

(** One call of [#close], that is one call of the underlying close function
    [k_fn] with [k_reason]. *)
Record CloseOp := {
  k_fn : nat;
  k_reason : val;
  k_signal : AbortSignal;                (* [signal], line 97 *)
  k_hookPromise : option hook_promise;   (* [hookPromise], line 99 *)
  k_closePromise : promise unit;         (* [closePromise], line 101 *)
  k_hook : promise unit;                 (* the hook's own promise *)
  k_caught : bool;     (* the [.catch] reaction ran: [hookPromise] fulfilled *)
  k_finally : bool;    (* the [.finally] reaction ran: [#closePromise] fulfilled *)
}.

(** [DerivedClosableValue]: the handle returned by [open()], with the
    variable [closed] its [close] closes over. *)
Record Handle := {
  h_value : val;
  h_close : nat;
  closed : bool;
}.

(** How a call ended. *)
Inductive outcome :=
  | Returned (h : nat)   (* [open()] fulfilled with handle [h] *)
  | ReturnedVoid         (* a handle's [close()] fulfilled *)
  | Thrown (e : val).    (* the call's promise rejected with [e] *)

(** Where a call is suspended.  A [signal] is the caller's own token. *)
Inductive task :=
  | OpenAwaitClose (k : nat) (signal : option nat)   (* line 141 *)
  | OpenAwaitOpen (o : nat) (signal : option nat)    (* line 169 *)
  | CatchAwaitOpen (o : option nat) (error : val)    (* line 198, inner await *)
  | CatchAwaitClose (k : nat) (error : val)          (* line 198, outer await *)
  | CloseAwait (k : nat)                             (* line 186 *)
  | Done (r : outcome).

(** The private fields of the class.  The opener [#open] is the environment;
    the slots hold indices into [opens] and [closes]. *)
Record AsyncRefCount := {
  count : Z;
  openController : option nat;
  openPromise : option nat;
  closeController : option nat;
  closePromise : option nat;
}.

Record state := {
  this : AsyncRefCount;
  opens : list OpenOp;            (* one entry per call of the opener *)
  closes : list CloseOp;          (* one entry per call of a close function *)
  signals : gmap nat val;         (* callers' signals that are aborted *)
  handles : list Handle;
  tasks : list task;
  reported : list val;            (* arguments of [reportError] *)
  acquired : list (nat * bool);   (* calls of [acquireHook]: close, returned? *)
}.

Global Instance outcome_eq_dec : EqDecision outcome.
Proof. solve_decision. Defined.

Global Instance task_eq_dec : EqDecision task.
Proof. solve_decision. Defined.

(** ** Field updates *)

Definition set_k_signal (x : AbortSignal) (op : CloseOp) : CloseOp :=
  {| k_fn := k_fn op; k_reason := k_reason op; k_signal := x;
     k_hookPromise := k_hookPromise op; k_closePromise := k_closePromise op;
     k_hook := k_hook op; k_caught := k_caught op; k_finally := k_finally op |}.

Definition set_k_hookPromise (x : option hook_promise) (op : CloseOp) : CloseOp :=
  {| k_fn := k_fn op; k_reason := k_reason op; k_signal := k_signal op;
     k_hookPromise := x; k_closePromise := k_closePromise op;
     k_hook := k_hook op; k_caught := k_caught op; k_finally := k_finally op |}.

Definition set_k_closePromise (x : promise unit) (op : CloseOp) : CloseOp :=
  {| k_fn := k_fn op; k_reason := k_reason op; k_signal := k_signal op;
     k_hookPromise := k_hookPromise op; k_closePromise := x;
     k_hook := k_hook op; k_caught := k_caught op; k_finally := k_finally op |}.

Definition set_k_hook (x : promise unit) (op : CloseOp) : CloseOp :=
  {| k_fn := k_fn op; k_reason := k_reason op; k_signal := k_signal op;
     k_hookPromise := k_hookPromise op; k_closePromise := k_closePromise op;
     k_hook := x; k_caught := k_caught op; k_finally := k_finally op |}.

Definition set_k_caught (x : bool) (op : CloseOp) : CloseOp :=
  {| k_fn := k_fn op; k_reason := k_reason op; k_signal := k_signal op;
     k_hookPromise := k_hookPromise op; k_closePromise := k_closePromise op;
     k_hook := k_hook op; k_caught := x; k_finally := k_finally op |}.

Definition set_k_finally (x : bool) (op : CloseOp) : CloseOp :=
  {| k_fn := k_fn op; k_reason := k_reason op; k_signal := k_signal op;
     k_hookPromise := k_hookPromise op; k_closePromise := k_closePromise op;
     k_hook := k_hook op; k_caught := k_caught op; k_finally := x |}.

Definition set_closed (x : bool) (h : Handle) : Handle :=
  {| h_value := h_value h; h_close := h_close h; closed := x |}.

(** The outcome of a promise as a settled state. *)
Definition settle {A} (r : A + val) : promise A :=
  match r with
  | inl a => Fulfilled a
  | inr e => Rejected e
  end.

Definition settle_void (r : option val) : promise unit :=
  match r with
  | None => Fulfilled ()
  | Some e => Rejected e
  end.

(** [controller.abort(reason)] on the controller of open [c], and
    [controller.abort()] on the controller of close [c]. *)
Definition abort_open (c : nat) (reason : val) (op : OpenOp) : OpenOp :=
  {| open_signal := abort (OpenController c) reason (open_signal op);
     open_promise := open_promise op |}.

Definition abort_close (c : nat) (op : CloseOp) : CloseOp :=
  set_k_signal (abort (CloseController c) Undefined (k_signal op)) op.

Definition set_count (n : Z) (a : AsyncRefCount) : AsyncRefCount :=
  {| count := n; openController := openController a; openPromise := openPromise a;
     closeController := closeController a; closePromise := closePromise a |}.

Definition set_open (c p : option nat) (a : AsyncRefCount) : AsyncRefCount :=
  {| count := count a; openController := c; openPromise := p;
     closeController := closeController a; closePromise := closePromise a |}.

Definition set_close (c p : option nat) (a : AsyncRefCount) : AsyncRefCount :=
  {| count := count a; openController := openController a; openPromise := openPromise a;
     closeController := c; closePromise := p |}.

Definition set_this (a : AsyncRefCount) (s : state) : state :=
  {| this := a; opens := opens s; closes := closes s; signals := signals s;
     handles := handles s; tasks := tasks s; reported := reported s;
     acquired := acquired s |}.

Definition set_opens (l : list OpenOp) (s : state) : state :=
  {| this := this s; opens := l; closes := closes s; signals := signals s;
     handles := handles s; tasks := tasks s; reported := reported s;
     acquired := acquired s |}.

Definition set_closes (l : list CloseOp) (s : state) : state :=
  {| this := this s; opens := opens s; closes := l; signals := signals s;
     handles := handles s; tasks := tasks s; reported := reported s;
     acquired := acquired s |}.

Definition set_signals (m : gmap nat val) (s : state) : state :=
  {| this := this s; opens := opens s; closes := closes s; signals := m;
     handles := handles s; tasks := tasks s; reported := reported s;
     acquired := acquired s |}.

Definition set_handles (l : list Handle) (s : state) : state :=
  {| this := this s; opens := opens s; closes := closes s; signals := signals s;
     handles := l; tasks := tasks s; reported := reported s;
     acquired := acquired s |}.

Definition set_tasks (l : list task) (s : state) : state :=
  {| this := this s; opens := opens s; closes := closes s; signals := signals s;
     handles := handles s; tasks := l; reported := reported s;
     acquired := acquired s |}.

Definition set_reported (l : list val) (s : state) : state :=
  {| this := this s; opens := opens s; closes := closes s; signals := signals s;
     handles := handles s; tasks := tasks s; reported := l;
     acquired := acquired s |}.

Definition set_acquired (l : list (nat * bool)) (s : state) : state :=
  {| this := this s; opens := opens s; closes := closes s; signals := signals s;
     handles := handles s; tasks := tasks s; reported := reported s;
     acquired := l |}.

(** A new call becomes the last task; a resumed call overwrites its entry. *)
Definition spawn (tk : task) (s : state) : state :=
  set_tasks (tasks s ++ [tk]) s.

Definition set_task (t : nat) (tk : task) (s : state) : state :=
  set_tasks (<[t := tk]> (tasks s)) s.

(** The state of a caller's signal: [signal?.aborted] with its reason. *)
Definition signal_reason (signal : option nat) (s : state) : option val :=
  match signal with
  | Some sid => signals s !! sid
  | None => None
  end.

(** ** The constructor (lines 90-93) *)

Definition init : state :=
  {| this := {| count := 0; openController := None; openPromise := None;
                closeController := None; closePromise := None |};
     opens := []; closes := []; signals := ∅; handles := []; tasks := [];
     reported := []; acquired := [] |}.

(** ** [#close] (lines 95-133) *)

(** The closure passed to the close function (lines 101-112) as a function
    of the variable [hookPromise]: whether a hook is returned, and the new
    value of the variable.  [false] is the throw of line 103. *)
Definition acquireHook (hookPromise : option hook_promise) : bool * option hook_promise :=
  match hookPromise with
  | Some _ => (false, hookPromise)
  | None => (true, Some HookRaw)
  end.

(** The close function running inside [Promise.try]: it calls [acquireHook]
    [n] times before it returns (or throws); each call is logged. *)
Fixpoint call_hooks (k n : nat) (hookPromise : option hook_promise)
    (log : list (nat * bool)) : option hook_promise * list (nat * bool) :=
  match n with
  | O => (hookPromise, log)
  | S n' =>
      let '(ok, hookPromise') := acquireHook hookPromise in
      call_hooks k n' hookPromise' (log ++ [(k, ok)])
  end.

(** [#close(close, reason)]; [hooks] is the number of [acquireHook] calls the
    close function makes synchronously.  Returns the index of the new close,
    whose [k_closePromise] is the promise [#close] returns. *)
Definition close_ (close : nat) (reason : val) (hooks : nat) (s : state) : nat * state :=
  let k := length (closes s) in
  let '(hookPromise, log) := call_hooks k hooks None (acquired s) in
  let chained :=
    match hookPromise with
    | None => CatchOfClose
    | Some _ => CatchOfHook
    end in
  let op := {| k_fn := close; k_reason := reason; k_signal := None;
               k_hookPromise := Some chained; k_closePromise := Pending;
               k_hook := Pending; k_caught := false; k_finally := false |} in
  (k, set_this (set_close (Some k) (Some k) (this s))
        (set_closes (closes s ++ [op]) (set_acquired log s))).

(** ** [open] (lines 135-204) *)

(** Lines 144-171, up to the [await]: increment, start the opener when the
    open slot is empty, then wait for [#openPromise]. *)
Definition open_enter (signal : option nat) (s : state) : task * state :=
  let s1 := set_this (set_count (count (this s) + 1) (this s)) s in
  match openPromise (this s1) with
  | Some o => (OpenAwaitOpen o signal, s1)
  | None =>
      let o := length (opens s1) in
      (OpenAwaitOpen o signal,
       set_this (set_open (Some o) (Some o) (this s1))
         (set_opens (opens s1 ++ [{| open_signal := None; open_promise := Pending |}]) s1))
  end.

(** Lines 136-142 and, when no close is in flight, lines 144-171. *)
Definition open (signal : option nat) (s : state) : task * state :=
  match signal_reason signal s with
  | Some reason => (Done (Thrown reason), s)
  | None =>
      match closePromise (this s) with
      | Some p =>
          match closeController (this s) with
          | Some c =>
              (OpenAwaitClose p signal,
               set_closes (alter (abort_close c) c (closes s)) s)
          | None => (Done (Thrown TypeError), s)
          end
      | None => open_enter signal s
      end
  end.

(** The [catch] block (lines 190-203) up to its first [await], or to the
    [throw] of the [finally] when the counter is not zero. *)
Definition open_catch (error : val) (s : state) : task * state :=
  let s1 := set_this (set_count (count (this s) - 1) (this s)) s in
  if decide (count (this s1) = 0) then
    let s2 :=
      match openController (this s1) with
      | Some c => set_opens (alter (abort_open c error) c (opens s1)) s1
      | None => s1
      end in
    (CatchAwaitOpen (openPromise (this s2)) error, s2)
  else (Done (Thrown error), s1).

(** The [close] of a handle (lines 177-188), up to its [await]. *)
Definition handle_close (h : nat) (reason : val) (hooks : nat) (s : state)
    : option (task * state) :=
  hd ← handles s !! h;
  if closed hd then Some (Done (Thrown AlreadyClosed), s)
  else
    let s1 :=
      set_this (set_count (count (this s) - 1) (this s))
        (set_handles (<[h := set_closed true hd]> (handles s)) s) in
    if decide (count (this s1) = 0) then
      let '(k, s2) := close_ (h_close hd) reason hooks s1 in
      Some (CloseAwait k, s2)
    else Some (Done ReturnedVoid, s1).

(** What the caller has in hand when a call hands control back: the promise
    an [async] function returns (a task), or the exception of a [throw]. *)
Inductive completion :=
  | Promised (t : nat)
  | Raised (e : val).

(** [handle.close(reason)] as its caller sees it.  The function is declared
    [async] (line 177): the call always hands back the promise it returns,
    which is the new task, and the [throw] of line 179 rejects that promise. *)
Definition call_close (h : nat) (reason : val) (hooks : nat) (s : state)
    : option (completion * state) :=
  '(tk, s') ← handle_close h reason hooks s;
  Some (Promised (length (tasks s)), spawn tk s').

(** ** Resumptions *)

(** Task [t] resumes because the promise it awaits is settled.  The two
    waits of [open()] go through [abortify]; this is the case where the
    promise settles first. *)
Definition resume (t : nat) (hooks : nat) (s : state) : option state :=
  tk ← tasks s !! t;
  match tk with
  | OpenAwaitClose k signal =>
      op ← closes s !! k;
      if k_finally op then
        let '(tk', s') := open_enter signal s in Some (set_task t tk' s')
      else None
  | OpenAwaitOpen o signal =>
      op ← opens s !! o;
      match open_promise op with
      | Pending => None
      | Fulfilled cv =>
          Some (set_task t (Done (Returned (length (handles s))))
                  (set_handles (handles s ++ [{| h_value := value cv;
                                                 h_close := close cv;
                                                 closed := false |}]) s))
      | Rejected e =>
          let '(tk', s') := open_catch e s in Some (set_task t tk' s')
      end
  | CatchAwaitOpen None error =>
      Some (set_task t (Done (Thrown error)) s)
  | CatchAwaitOpen (Some o) error =>
      op ← opens s !! o;
      match open_promise op with
      | Pending => None
      | Fulfilled cv =>
          let '(k, s') := close_ (close cv) error hooks s in
          Some (set_task t (CatchAwaitClose k error) s')
      | Rejected _ => Some (set_task t (Done (Thrown error)) s)
      end
  | CatchAwaitClose k error =>
      op ← closes s !! k;
      if settled (k_closePromise op) then Some (set_task t (Done (Thrown error)) s)
      else None
  | CloseAwait k =>
      op ← closes s !! k;
      match k_closePromise op with
      | Pending => None
      | Fulfilled _ => Some (set_task t (Done ReturnedVoid) s)
      | Rejected e => Some (set_task t (Done (Thrown e)) s)
      end
  | Done _ => None
  end.

(** Modelled from the spec: [abortify] is imported from [@xstd/abortable]
    and its source is not part of the repository.  By its contract (section
    6 of the specification) [abortify(promise, {signal})] resolves or rejects
    with whichever settles first, the promise or the abort of the signal,
    with the signal's reason.  Task [t] resumes here because [abortify]
    rejected with the reason of the caller's aborted signal; when both the
    promise and the signal have settled, either of [resume] and [cancel_wait]
    may happen. *)
Definition cancel_wait (t : nat) (s : state) : option state :=
  tk ← tasks s !! t;
  match tk with
  | OpenAwaitClose _ signal =>
      reason ← signal_reason signal s;
      Some (set_task t (Done (Thrown reason)) s)
  | OpenAwaitOpen _ signal =>
      reason ← signal_reason signal s;
      let '(tk', s') := open_catch reason s in Some (set_task t tk' s')
  | _ => None
  end.

(** ** Promise reactions *)

(** The opener's promise settles and the reaction of lines 150-164 runs. *)
Definition opener_settles (o : nat) (r : ClosableValue + val) (s : state) : option state :=
  op ← opens s !! o;
  match open_promise op with
  | Pending =>
      let op' := {| open_signal := abort (OpenController o) Undefined (open_signal op);
                    open_promise := settle r |} in
      let a := this s in
      let a' :=
        if decide (openController a = Some o) then
          match r with
          | inl _ => set_open None (openPromise a) a
          | inr _ => set_open None None a
          end
        else a in
      Some (set_this a' (set_opens (<[o := op']> (opens s)) s))
  | _ => None
  end.

(** The promise returned by the close function settles. *)
Definition close_settles (k : nat) (r : option val) (s : state) : option state :=
  op ← closes s !! k;
  match k_closePromise op with
  | Pending =>
      Some (set_closes (<[k := set_k_closePromise (settle_void r) op]> (closes s)) s)
  | _ => None
  end.

(** The close implementation calls [resolve] or [reject e] of the hook it
    acquired. *)
Definition hook_settles (k : nat) (r : option val) (s : state) : option state :=
  op ← closes s !! k;
  match k_hookPromise op, k_hook op with
  | Some CatchOfHook, Pending =>
      Some (set_closes (<[k := set_k_hook (settle_void r) op]> (closes s)) s)
  | _, _ => None
  end.

(** The close implementation calls [acquireHook] after the close function
    has returned (from a later continuation). *)
Definition acquire_late (k : nat) (s : state) : option state :=
  op ← closes s !! k;
  let '(ok, hookPromise) := acquireHook (k_hookPromise op) in
  Some (set_acquired (acquired s ++ [(k, ok)])
          (set_closes (<[k := set_k_hookPromise hookPromise op]> (closes s)) s)).

(** The condition of line 118. *)
Definition unexpected (signal : AbortSignal) (error : val) : bool :=
  match signal with
  | None => true
  | Some reason => bool_decide (error ≠ reason)
  end.

(** The [.catch] reaction of line 115 or of lines 117-121. *)
Definition catch_reaction (k : nat) (s : state) : option state :=
  op ← closes s !! k;
  if k_caught op then None
  else
    let caught := set_k_caught true op in
    match k_hookPromise op with
    | Some CatchOfClose =>
        if settled (k_closePromise op)
        then Some (set_closes (<[k := caught]> (closes s)) s)
        else None
    | Some CatchOfHook =>
        match k_hook op with
        | Pending => None
        | Fulfilled _ => Some (set_closes (<[k := caught]> (closes s)) s)
        | Rejected error =>
            Some (set_closes (<[k := caught]> (closes s))
                    (if unexpected (k_signal op) error
                     then set_reported (reported s ++ [error]) s
                     else s))
        end
    | _ => None
    end.

(** The [.finally] reaction of lines 124-130. *)
Definition finally_reaction (k : nat) (s : state) : option state :=
  op ← closes s !! k;
  if k_caught op && negb (k_finally op) then
    let a := this s in
    let a1 :=
      match k_signal op with
      | None => set_open (openController a) None a
      | Some _ => a
      end in
    Some (set_this (set_close None None a1)
            (set_closes (<[k := set_k_finally true op]> (closes s)) s))
  else None.

(** A caller aborts its own signal [sid]; [reason] is the resulting
    [signal.reason]. *)
Definition abort_signal (sid : nat) (reason : val) (s : state) : state :=
  match signals s !! sid with
  | Some _ => s
  | None => set_signals (<[sid := reason]> (signals s)) s
  end.

(** ** Events and runs *)

(** [hooks] is the number of [acquireHook] calls a close function makes
    before it returns, should the event call one. *)
Inductive event :=
  | CallOpen (signal : option nat)                    (* [open({signal})] *)
  | CallClose (h : nat) (reason : val) (hooks : nat)  (* [close(reason)] of handle [h] *)
  | Resume (t : nat) (hooks : nat)                    (* task [t] resumes: promise settled *)
  | CancelWait (t : nat)                              (* task [t] resumes: signal aborted *)
  | AbortSignalOf (sid : nat) (reason : val)          (* a caller aborts signal [sid] *)
  | OpenerSettles (o : nat) (r : ClosableValue + val) (* lines 150-164 *)
  | CloseSettles (k : nat) (r : option val)           (* [closePromise] of close [k] settles *)
  | HookSettles (k : nat) (r : option val)            (* [resolve()] or [reject(e)] of the hook *)
  | AcquireLate (k : nat)                             (* [acquireHook()] after the close returned *)
  | CatchReaction (k : nat)                           (* lines 115-121 *)
  | FinallyReaction (k : nat).                        (* lines 124-130 *)

(** One event; [None] when the event cannot happen in [s]. *)
Definition step (e : event) (s : state) : option state :=
  match e with
  | CallOpen signal => let '(tk, s') := open signal s in Some (spawn tk s')
  | CallClose h reason hooks =>
      '(tk, s') ← handle_close h reason hooks s; Some (spawn tk s')
  | Resume t hooks => resume t hooks s
  | CancelWait t => cancel_wait t s
  | AbortSignalOf sid reason => Some (abort_signal sid reason s)
  | OpenerSettles o r => opener_settles o r s
  | CloseSettles k r => close_settles k r s
  | HookSettles k r => hook_settles k r s
  | AcquireLate k => acquire_late k s
  | CatchReaction k => catch_reaction k s
  | FinallyReaction k => finally_reaction k s
  end.

Fixpoint run (es : list event) (s : state) : option state :=
  match es with
  | [] => Some s
  | e :: es' => s' ← step e s; run es' s'
  end.

(** States the instance can be in: those some run reaches from [init]. *)
Definition reachable (s : state) : Prop := ∃ es, run es init = Some s.

(** ** The counter and what it counts *)

Fixpoint count_where {A} (f : A → bool) (l : list A) : nat :=
  match l with
  | [] => O
  | x :: l' => ((if f x then 1 else 0) + count_where f l')%nat
  end.

(** A call of [open()] that has incremented the counter and awaits the
    shared open (line 169). *)
Definition awaits_open (tk : task) : bool :=
  match tk with
  | OpenAwaitOpen _ _ => true
  | _ => false
  end.

(** A handle whose [close()] has not been called yet. *)
Definition live (h : Handle) : bool := negb (closed h).

Definition awaiting_opens (s : state) : nat := count_where awaits_open (tasks s).
Definition live_handles (s : state) : nat := count_where live (handles s).

(** ** Program order and well-formed states *)

(** A call of [open()] that is in its [catch] block with [error], or has
    rejected with it. *)
Definition failing (error : val) (tk : task) : Prop :=
  (∃ o, tk = CatchAwaitOpen o error) ∨ (∃ k, tk = CatchAwaitClose k error)
  ∨ tk = Done (Thrown error).

(** What a suspended call can become when it resumes, read off the source
    in program order; [s] is the state before and [s'] the state after. *)
Definition moves (s s' : state) (tk tk' : task) : Prop :=
  match tk with
  | OpenAwaitClose k signal =>
      (∃ op o, closes s !! k = Some op ∧ k_finally op = true
               ∧ tk' = OpenAwaitOpen o signal ∧ openPromise (this s') = Some o
               ∧ (openPromise (this s) = Some o ∧ opens s' = opens s
                  ∨ openPromise (this s) = None
                    ∧ length (opens s') = S (length (opens s))))
      ∨ (∃ r, signal_reason signal s = Some r ∧ tk' = Done (Thrown r))
  | OpenAwaitOpen o signal =>
      (∃ op cv h, opens s !! o = Some op ∧ open_promise op = Fulfilled cv
                  ∧ tk' = Done (Returned h)
                  ∧ handles s !! h = None
                  ∧ handles s' !! h = Some {| h_value := value cv; h_close := close cv;
                                              closed := false |})
      ∨ (∃ op e, opens s !! o = Some op ∧ open_promise op = Rejected e ∧ failing e tk')
      ∨ (∃ r, signal_reason signal s = Some r ∧ failing r tk')
  | CatchAwaitOpen _ error | CatchAwaitClose _ error => failing error tk'
  | CloseAwait k =>
      ∃ op, closes s !! k = Some op
            ∧ (k_closePromise op = Fulfilled () ∧ tk' = Done ReturnedVoid
               ∨ ∃ e, k_closePromise op = Rejected e ∧ tk' = Done (Thrown e))
  | Done _ => False
  end.

Definition pending_open (s : state) (o : nat) : Prop :=
  ∃ op, opens s !! o = Some op ∧ open_promise op = Pending.

(** Facts about the slots that hold in every reachable state. *)
Record wf (s : state) : Prop := {
  wf_controller : ∀ c, openController (this s) = Some c → pending_open s c;
  wf_open : ∀ o, openPromise (this s) = Some o →
    ∃ op, opens s !! o = Some op
          ∧ (open_promise op = Pending → openController (this s) = Some o);
  wf_close : ∀ k, closePromise (this s) = Some k →
    closeController (this s) = Some k
    ∧ ∃ op, closes s !! k = Some op ∧ k_finally op = false;
  wf_hook : ∀ k op, closes s !! k = Some op →
    k_hookPromise op = Some CatchOfClose ∨ k_hookPromise op = Some CatchOfHook;
}.

(** The counter counts the calls awaiting the shared open and the handles
    not yet closed. *)
Definition counter_inv (s : state) : Prop :=
  count (this s) = Z.of_nat (awaiting_opens s + live_handles s).

(** ** Notions used in the statements *)

(** The [.finally] reaction of close [k] has run: [#closePromise] of that
    close is fulfilled and the close has fully settled. *)
Definition finalized (s : state) (k : nat) : Prop :=
  ∃ op, closes s !! k = Some op ∧ k_finally op = true.

Definition rejected_open (s : state) (o : nat) (error : val) : Prop :=
  ∃ op, opens s !! o = Some op ∧ open_promise op = Rejected error.

(** The wait of line 169 ends with [error]: the shared open rejected with
    it, or [abortify] rejected with it as the reason of the caller's signal. *)
Definition wait_fails (e : event) (s : state) (t o : nat) (signal : option nat)
    (error : val) : Prop :=
  (∃ hooks, e = Resume t hooks ∧ rejected_open s o error)
  ∨ (e = CancelWait t ∧ signal_reason signal s = Some error).

(** A call awaiting a rejected open is still waiting, or fails with the
    open's reason, or fails with the reason of its own aborted signal. *)
Definition fails_or_waits (s : state) (t o : nat) (signal : option nat)
    (error : val) : Prop :=
  ∃ tk, tasks s !! t = Some tk
        ∧ (tk = OpenAwaitOpen o signal ∨ failing error tk
           ∨ ∃ reason, signal_reason signal s = Some reason ∧ failing reason tk).

(** The two places of the source that call [#close]: line 186, in the
    [close()] of a handle that takes the counter from 1 to 0, and line 198,
    in the [catch] block of [open()] once the awaited open has a value. *)
Definition closes_last_handle (e : event) (s : state) (cl : nat) : Prop :=
  ∃ h reason hooks hd,
    e = CallClose h reason hooks ∧ handles s !! h = Some hd ∧ closed hd = false
    ∧ h_close hd = cl ∧ count (this s) = 1.

Definition closes_unreferenced_open (e : event) (s : state) (cl : nat) : Prop :=
  ∃ t hooks o error op cv,
    e = Resume t hooks ∧ tasks s !! t = Some (CatchAwaitOpen (Some o) error)
    ∧ opens s !! o = Some op ∧ open_promise op = Fulfilled cv ∧ close cv = cl.

(** Events that take the open [o] out of the open slot by design: the end
    of a close, and the settlement of [o] itself. *)
Definition ends_open (o : nat) (e : event) : Prop :=
  (∃ k, e = FinallyReaction k) ∨ (∃ r, e = OpenerSettles o r).

(** The error a call carries once it is failing. *)
Definition error_of (tk : task) : option val :=
  match tk with
  | CatchAwaitOpen _ e | CatchAwaitClose _ e | Done (Thrown e) => Some e
  | _ => None
  end.

(** Where the error of a call can come from: the two errors the class
    creates, the reason of a caller's aborted signal, the rejection of an
    open, the rejection of the promise a close function returned. *)
Definition thrown_source (s : state) (e : val) : Prop :=
  e = AlreadyClosed ∨ e = TypeError
  ∨ (∃ sid, signals s !! sid = Some e)
  ∨ (∃ o, rejected_open s o e)
  ∨ (∃ k op, closes s !! k = Some op ∧ k_closePromise op = Rejected e).

Definition errors_sourced (s : state) : Prop :=
  ∀ t tk e, tasks s !! t = Some tk → error_of tk = Some e → thrown_source s e.

(** A call that waits at line 198 for the open in the slot, to close its
    value: it has taken the counter to 0 at line 193. *)
Definition waits_to_close (tk : task) : bool :=
  match tk with
  | CatchAwaitOpen (Some _) _ => true
  | _ => false
  end.

Definition abandoned (s : state) : bool := existsb waits_to_close (tasks s).

(** The event runs the increment of line 144: an [open()] that finds its
    signal not aborted and no close in the slot, or one that resumes from
    the wait of line 141. *)
Definition enters (e : event) (s : state) : bool :=
  match e with
  | CallOpen signal =>
      match signal_reason signal s, closePromise (this s) with
      | None, None => true
      | _, _ => false
      end
  | Resume t _ =>
      match tasks s !! t with
      | Some (OpenAwaitClose _ _) => true
      | _ => false
      end
  | _ => false
  end.

(** Along the run [es] from [s], no [open()] increments the counter while a
    call waits at line 198. *)
Fixpoint unjoined (es : list event) (s : state) : bool :=
  match es with
  | [] => true
  | e :: es' =>
      negb (enters e s && abandoned s)
      && match step e s with
         | Some s' => unjoined es' s'
         | None => true
         end
  end.

(** While a call waits at line 198 the counter is 0. *)
Definition unreferenced_wait (s : state) : Prop :=
  abandoned s = true → count (this s) = 0.

(** ** Concrete values and runs *)

Definition conn : ClosableValue := {| value := Data 7; close := 0 |}.

Definition boom : val := Data 3.

(** The state a run from [init] ends in. *)
Definition state_after (es : list event) : state := default init (run es init).

(** A caller cancels as the last reference and waits in the [catch] block
    (task 0); a second caller joins the aborted open (task 1); the opener
    fulfils all the same; task 0 closes the value (close 0) while task 1
    holds a handle; that handle is closed (close 1) while close 0 is still
    in flight; close 0 settles and its [.finally] clears the slots of close 1. *)
Definition overlapping_closes : list event :=
  [CallOpen (Some 0%nat); AbortSignalOf 0 (Data 9); CancelWait 0; CallOpen None;
   OpenerSettles 0 (inl conn); Resume 0 0; Resume 1 0; CallClose 0 Undefined 0;
   CloseSettles 0 None; CatchReaction 0; FinallyReaction 0].

(** One caller holds a handle on [conn]. *)
Definition one_handle : list event :=
  [CallOpen None; OpenerSettles 0 (inl conn); Resume 0 0].

(** The only handle is closed: close 0 is in flight. *)
Definition closing : list event := one_handle ++ [CallClose 0 Undefined 0].

(** Two callers hold a handle on [conn]. *)
Definition two_handles : list event :=
  [CallOpen None; CallOpen None; OpenerSettles 0 (inl conn); Resume 0 0; Resume 1 0].

(** The only caller aborts its signal while the opener is pending. *)
Definition cancelled_last : list event :=
  [CallOpen (Some 0%nat); AbortSignalOf 0 (Data 9)].

(** An [open()] supersedes close 0: the close is aborted and settles, and the
    call (task 2) resumes twice, past lines 141 and 169. *)
Definition superseded : list event :=
  [CallOpen None; CloseSettles 0 None; CatchReaction 0; FinallyReaction 0;
   Resume 2 0; Resume 2 0].

(** After [overlapping_closes], an [open()] starts open 1, close 1 settles
    and its [.finally] empties the open slot, and a second [open()] starts
    open 2: two opener calls are pending and the slot holds the second. *)
Definition two_pending_opens : list event :=
  overlapping_closes ++ [CallOpen None; CloseSettles 1 None; CatchReaction 1;
                         FinallyReaction 1; CallOpen None].

(** A second caller joins the open while the first, cancelled as the last
    reference, waits at line 198; the opener fulfils and the second caller
    gets its handle. *)
Definition joined_abandoned : list event :=
  cancelled_last ++ [CancelWait 0; CallOpen None; OpenerSettles 0 (inl conn); Resume 1 0].

(** ** Notions of the further properties *)

(** The opener has produced the value [v] together with the close function
    [cl]: some open is fulfilled with them. *)
Definition produced (s : state) (v : val) (cl : nat) : Prop :=
  ∃ o op, opens s !! o = Some op
          ∧ open_promise op = Fulfilled {| value := v; close := cl |}.

(** Every handle wraps a pair the opener produced, and every call of
    [#close] got the close function of such a pair. *)
Definition provenance (s : state) : Prop :=
  (∀ h hd, handles s !! h = Some hd → produced s (h_value hd) (h_close hd))
  ∧ (∀ k op, closes s !! k = Some op → ∃ v, produced s v (k_fn op)).

(** The two close slots are assigned together (lines 96 and 124) and
    cleared together (lines 128-129). *)
Definition close_slots_paired (s : state) : Prop :=
  closeController (this s) = closePromise (this s).

(** The reactions of lines 150-164 abort the controller of the open they
    settle. *)
Definition settled_opens_aborted (s : state) : Prop :=
  ∀ o op, opens s !! o = Some op → open_promise op ≠ Pending → is_Some (open_signal op).

(** The token of close [k] is aborted by line 139 only, which passes no
    reason. *)
Definition close_abort_reason (s : state) : Prop :=
  ∀ k op r, closes s !! k = Some op → k_signal op = Some r →
            r = AbortError (CloseController k).

(** The promise the [.catch] of a close is chained on has settled: the
    promise of the hook when the close function took the hook (line 117),
    the promise the close function returned otherwise (line 115). *)
Definition completion_settled (op : CloseOp) : bool :=
  match k_hookPromise op with
  | Some CatchOfHook => settled (k_hook op)
  | _ => settled (k_closePromise op)
  end.

(** The order of the reactions of a close: [.finally] after [.catch],
    [.catch] after the promise it is chained on; only an acquired hook is
    ever settled. *)
Definition close_ordered (s : state) : Prop :=
  ∀ k op, closes s !! k = Some op →
    (k_finally op = true → k_caught op = true)
    ∧ (k_caught op = true → completion_settled op = true)
    ∧ (k_hook op ≠ Pending → k_hookPromise op = Some CatchOfHook).

(** [error] was passed to [reportError] for a reason: it is the rejection of
    the hook of a close whose [.catch] reaction has run. *)
Definition reported_hook (s : state) (error : val) : Prop :=
  ∃ k op, closes s !! k = Some op ∧ k_hookPromise op = Some CatchOfHook
          ∧ k_hook op = Rejected error ∧ k_caught op = true.

Definition reports_from_hooks (s : state) : Prop :=
  ∀ error, error ∈ reported s → reported_hook s error.

(** The number of hooks [acquireHook] has returned for close [k]. *)
Definition grants (k : nat) (log : list (nat * bool)) : nat :=
  count_where (λ p, bool_decide (p = (k, true))) log.

(** The value of the variable [hookPromise] of every close, in the order of
    the calls of [#close]. *)
Definition modes (s : state) : list (option hook_promise) :=
  k_hookPromise <$> closes s.

(** The [acquireHook] calls a close function makes before it returns, as
    [call_hooks] logs them for close [k]. *)
Definition sync_calls (k hooks : nat) : list (nat * bool) :=
  match hooks with
  | O => []
  | S n => (k, true) :: replicate n (k, false)
  end.

(** Only started closes are logged, and a close has been given one hook
    when it completes through its hook and none otherwise. *)
Definition hooks_granted (s : state) : Prop :=
  (∀ k ok, (k, ok) ∈ acquired s → (k < length (modes s))%nat)
  ∧ ∀ k m, modes s !! k = Some m →
      grants k (acquired s) = if m is Some CatchOfHook then 1%nat else 0%nat.

Definition fulfilled_open (s : state) (o : nat) (cv : ClosableValue) : Prop :=
  ∃ op, opens s !! o = Some op ∧ open_promise op = Fulfilled cv.

(** The handle [h] wraps the value and the close function of [cv]. *)
Definition handle_of (s : state) (h : nat) (cv : ClosableValue) : Prop :=
  ∃ hd, handles s !! h = Some hd ∧ h_value hd = value cv ∧ h_close hd = close cv.

(** Where a call that awaited open [o] at line 169 can be: still waiting;
    returned, with a handle on what [o] was fulfilled with; or failing, with
    the rejection of [o] or with the reason of its own signal. *)
Definition open_outcome (s : state) (t o : nat) (signal : option nat) : Prop :=
  ∃ tk, tasks s !! t = Some tk
        ∧ (tk = OpenAwaitOpen o signal
           ∨ (∃ h cv, tk = Done (Returned h) ∧ fulfilled_open s o cv ∧ handle_of s h cv)
           ∨ (∃ e, failing e tk
                   ∧ (rejected_open s o e ∨ signal_reason signal s = Some e))).

(** Where a call of [close()] that awaited close [k] at line 186 can be:
    still waiting, or settled as the promise the close function returned. *)
Definition close_outcome (s : state) (t k : nat) : Prop :=
  ∃ tk op, tasks s !! t = Some tk ∧ closes s !! k = Some op
           ∧ (tk = CloseAwait k
              ∨ (tk = Done ReturnedVoid ∧ k_closePromise op = Fulfilled ())
              ∨ (∃ e, tk = Done (Thrown e) ∧ k_closePromise op = Rejected e)).

(** When [#openPromise] is set, [#openController] is unset or belongs to
    the same open. *)
Definition slot_controller (s : state) : Prop :=
  ∀ o c, openPromise (this s) = Some o → openController (this s) = Some c → c = o.

(** The events that assign [undefined] to [#openPromise] while it holds the
    open [o]: the [.finally] of a close (line 126) and the rejection of [o]
    (line 161). *)
Definition empties_slot (o : nat) (e : event) : bool :=
  match e with
  | FinallyReaction _ => true
  | OpenerSettles o' (inr _) => bool_decide (o' = o)
  | _ => false
  end.

(** The settlement of the hook, when the close function took it. *)
Definition hook_events (k hooks : nat) (rh : option val) : list event :=
  match hooks with
  | O => []
  | S _ => [HookSettles k rh]
  end.

(** One caller opens, gets its handle and closes it; the close function
    calls [acquireHook] [hooks] times before it returns and its promise
    settles with [r]; the closing call resumes; the hook, if taken, settles
    with [rh]; the reactions of the close run. *)
Definition episode (s : state) (signal : option nat) (cv : ClosableValue)
    (reason : val) (hooks : nat) (r rh : option val) : list event :=
  [CallOpen signal; OpenerSettles (length (opens s)) (inl cv);
   Resume (length (tasks s)) 0; CallClose (length (handles s)) reason hooks;
   CloseSettles (length (closes s)) r; Resume (S (length (tasks s))) 0]
  ++ hook_events (length (closes s)) hooks rh
  ++ [CatchReaction (length (closes s)); FinallyReaction (length (closes s))].

(** The state [episode] ends in: the fields of the instance as the
    constructor leaves them; one more open, close and handle and two more
    finished calls than in [s]; the calls of [acquireHook] logged; the
    rejection of the hook, if any, reported. *)
Definition after_episode (s : state) (cv : ClosableValue) (reason : val)
    (hooks : nat) (r rh : option val) : state :=
  {| this := {| count := 0; openController := None; openPromise := None;
                closeController := None; closePromise := None |};
     opens := opens s ++
       [{| open_signal := Some (AbortError (OpenController (length (opens s))));
           open_promise := Fulfilled cv |}];
     closes := closes s ++
       [{| k_fn := close cv; k_reason := reason; k_signal := None;
           k_hookPromise := Some (if hooks is O then CatchOfClose else CatchOfHook);
           k_closePromise := settle_void r;
           k_hook := if hooks is O then Pending else settle_void rh;
           k_caught := true; k_finally := true |}];
     signals := signals s;
     handles := handles s ++
       [{| h_value := value cv; h_close := close cv; closed := true |}];
     tasks := tasks s ++
       [Done (Returned (length (handles s)));
        Done (match r with None => ReturnedVoid | Some e => Thrown e end)];
     reported := reported s ++
       match hooks, rh with
       | S _, Some e => [e]
       | _, _ => []
       end;
     acquired := acquired s ++ sync_calls (length (closes s)) hooks |}.

(** The only handle is closed by a close function that takes the hook and
    rejects it with [Data 5]; the [.catch] reaction of the close has run. *)
Definition hook_rejected : list event :=
  one_handle ++ [CallClose 0 Undefined 1; HookSettles 0 (Some (Data 5)); CatchReaction 0].

(** The close of the only handle has run to its end. *)
Definition closed_again : list event :=
  closing ++ [CloseSettles 0 None; CatchReaction 0; FinallyReaction 0].

(** * Proofs *)

(** ** Lists and runs *)

Lemma count_where_app {A} (f : A → bool) (l1 l2 : list A) :
  count_where f (l1 ++ l2) = (count_where f l1 + count_where f l2)%nat.
Proof. induction l1 as [|x l1 IH]; simpl; [done|]. rewrite IH. lia. Qed.

Lemma count_where_insert {A} (f : A → bool) (l : list A) (i : nat) (x y : A) :
  l !! i = Some x →
  (count_where f (<[i := y]> l) + (if f x then 1 else 0) =
   count_where f l + (if f y then 1 else 0))%nat.
Proof.
  revert i. induction l as [|z l IH]; intros [|i] Hi; simplify_eq/=.
  - lia.
  - specialize (IH _ Hi). lia.
Qed.

Lemma lookup_snoc {A} (l : list A) (x : A) : (l ++ [x]) !! length l = Some x.
Proof. by rewrite lookup_app_r, Nat.sub_diag. Qed.

Lemma run_app (es1 es2 : list event) (s : state) :
  run (es1 ++ es2) s = run es1 s ≫= run es2.
Proof.
  revert s. induction es1 as [|e es1 IH]; intros s; simpl; [done|].
  destruct (step e s) as [s1|]; simpl; [apply IH|done].
Qed.

(** A property kept by every event holds along every run. *)
Lemma run_invariant (P : state → Prop) :
  (∀ e s s', P s → step e s = Some s' → P s') →
  ∀ es s s', P s → run es s = Some s' → P s'.
Proof.
  intros Hstep es. induction es as [|e es IH]; intros s s' HP Hrun; simplify_eq/=.
  - done.
  - destruct (step e s) as [s1|] eqn:He; simplify_eq/=. eauto.
Qed.

Lemma reachable_invariant (P : state → Prop) :
  P init →
  (∀ e s s', P s → step e s = Some s' → P s') →
  ∀ s, reachable s → P s.
Proof. intros H0 Hstep s [es Hes]. eapply run_invariant; eauto. Qed.

(** ** Case analysis of one event *)

Ltac case_step H :=
  repeat (simpl in H;
    match type of H with
    | None = Some _ => discriminate H
    | context [mbind _ ?x] =>
        lazymatch x with
        | context [match _ with _ => _ end] => fail
        | context [mbind] => fail
        | _ => let E := fresh "E" in destruct x eqn:E
        end
    | context [match ?x with _ => _ end] =>
        lazymatch x with
        | context [match _ with _ => _ end] => fail
        | context [mbind] => fail
        | _ => let E := fresh "E" in destruct x eqn:E
        end
    | context [decide ?P] => destruct (decide P)
    end).

Ltac step_inv H :=
  unfold step, resume, cancel_wait, opener_settles, close_settles, hook_settles,
    acquire_late, catch_reaction, finally_reaction, handle_close, open, abort_signal,
    open_enter, open_catch, close_ in H;
  case_step H;
  injection H as <-; simpl in *.

(** Lookups after an update, in the goal and in a hypothesis. *)
Ltac lookup_cases :=
  repeat match goal with
  | H : ?l !! ?i = Some _ |- context [(?l ++ _) !! ?i] =>
      rewrite (lookup_app_l l) by (eapply lookup_lt_Some; exact H)
  | |- context [alter _ ?n _ !! ?n] => rewrite list_lookup_alter_eq
  | H : ?l !! ?n = Some _ |- context [<[?n := _]> ?l !! ?n] =>
      rewrite list_lookup_insert_eq by (eapply lookup_lt_Some; exact H)
  | |- context [alter _ ?n _ !! ?o] =>
      destruct (decide (n = o)) as [->|];
      [rewrite list_lookup_alter_eq | rewrite list_lookup_alter_ne by done]
  | H : ?l !! ?o = Some _ |- context [<[?n := _]> ?l !! ?o] =>
      destruct (decide (n = o)) as [->|];
      [rewrite list_lookup_insert_eq by (eapply lookup_lt_Some; exact H)
      |rewrite list_lookup_insert_ne by done]
  end.

Ltac lookup_inv H :=
  repeat first
  [ let H' := fresh in
    apply lookup_snoc_Some in H as [[_ H]|[_ H']]; [|simplify_eq/=]
  | let H' := fresh in
    apply list_lookup_insert_Some in H as [(? & H' & _)|[? H]]; [simplify_eq/=|]
  | match type of H with
    | alter _ ?n _ !! ?o = Some _ =>
        destruct (decide (n = o)) as [<-|];
        [ rewrite list_lookup_alter_eq in H;
          let x := fresh "op" in
          let Hx := fresh "Hop" in
          destruct (_ !! n) as [x|] eqn:Hx; simplify_eq/=
        | rewrite list_lookup_alter_ne in H by done ]
    end ].

(** ** What an event keeps *)

(** A settled open stays as it is, and an aborted signal keeps its reason. *)
Lemma step_opens e s s' o op :
  step e s = Some s' → opens s !! o = Some op →
  ∃ op', opens s' !! o = Some op'
         ∧ (open_promise op ≠ Pending → open_promise op' = open_promise op)
         ∧ (is_Some (open_signal op) → open_signal op' = open_signal op).
Proof.
  intros Hstep Ho. destruct e; step_inv Hstep; lookup_cases; simplify_eq/=;
    try rewrite Ho; simpl; eexists; (split; [done|]); (split; [simpl; congruence|]).
  all: intros [? Hx]; simpl; by rewrite Hx.
Qed.

Lemma step_closes e s s' k op :
  step e s = Some s' → closes s !! k = Some op →
  ∃ op', closes s' !! k = Some op'
         ∧ k_fn op' = k_fn op ∧ k_reason op' = k_reason op
         ∧ (is_Some (k_signal op) → k_signal op' = k_signal op)
         ∧ (k_closePromise op ≠ Pending → k_closePromise op' = k_closePromise op)
         ∧ (k_finally op = true → k_finally op' = true).
Proof.
  intros Hstep Hk. destruct e; step_inv Hstep; lookup_cases;
    simplify_eq/=; try rewrite Hk; simpl; eexists; try (split; [done|]);
    repeat split; try done; try congruence.
  all: intros [? Hx]; simpl; by rewrite Hx.
Qed.

Lemma step_signals e s s' sid r :
  step e s = Some s' → signals s !! sid = Some r → signals s' !! sid = Some r.
Proof.
  intros Hstep Hk. destruct e; step_inv Hstep; try done.
  rewrite lookup_insert_ne; [done|]. congruence.
Qed.

Lemma step_handles e s s' h hd :
  step e s = Some s' → handles s !! h = Some hd →
  ∃ hd', handles s' !! h = Some hd'
         ∧ h_value hd' = h_value hd ∧ h_close hd' = h_close hd
         ∧ (closed hd = true → closed hd' = true).
Proof.
  intros Hstep Hk. destruct e; step_inv Hstep; lookup_cases;
    simplify_eq/=; eauto.
Qed.

(** ** Program order *)

Lemma failing_intro error tk :
  (∃ o, tk = CatchAwaitOpen o error) ∨ (∃ k, tk = CatchAwaitClose k error)
  ∨ tk = Done (Thrown error) → failing error tk.
Proof. done. Qed.

Ltac solve_failing :=
  apply failing_intro;
  first [ by left; eexists | by right; left; eexists | by right; right ].

Ltac solve_moves :=
  simpl; repeat match goal with a : unit |- _ => destruct a end;
  first
  [ solve [ solve_failing ]
  | solve [ left; do 2 eexists; split_and!; [eassumption|done|done|done|];
            first [ left; by split
                  | right; split; [done|]; rewrite length_app; simpl; lia ] ]
  | solve [ right; eexists; split; [eassumption|done] ]
  | solve [ left; do 3 eexists; split_and!; [eassumption|eassumption|done| |];
            [ by apply lookup_ge_None_2
            | by rewrite lookup_app_r, Nat.sub_diag by done ] ]
  | solve [ right; left; do 2 eexists; split_and!; [eassumption|eassumption|];
            solve_failing ]
  | solve [ right; right; eexists; split; [eassumption|]; solve_failing ]
  | solve [ eexists; split; [eassumption|]; first
            [ left; by split
            | right; eexists; by split ] ] ].

(** Every event leaves a task where it is or moves it in program order. *)
Lemma step_tasks e s s' t tk :
  step e s = Some s' → tasks s !! t = Some tk →
  ∃ tk', tasks s' !! t = Some tk' ∧ (tk' = tk ∨ moves s s' tk tk').
Proof.
  intros Hstep Ht. destruct e; step_inv Hstep; lookup_cases; simplify_eq/=;
    try (by eauto).
  all: eexists; (split; [done|]); right; solve_moves.
Qed.

(** ** Well-formed states *)

Lemma wf_init : wf init.
Proof. split; simpl; intros; simplify_eq. Qed.

Lemma step_wf_controller e s s' : wf s → step e s = Some s' →
  ∀ c, openController (this s') = Some c → pending_open s' c.
Proof.
  intros Hwf Hstep c. unfold pending_open in *.
  destruct e; step_inv Hstep; intros Hctl; simplify_eq/=.
  all: try (by apply Hwf).
  all: try (rewrite lookup_snoc; by eauto).
  all: match goal with
       | H : openController (this _) = Some _ |- _ =>
           destruct (wf_controller _ Hwf _ H) as (op & Hop & Hpend)
       end.
  all: lookup_cases; simplify_eq/=.
  all: try (by eauto).
  all: try (rewrite Hop; simpl; by eauto).
Qed.

Lemma step_wf_open e s s' : wf s → step e s = Some s' →
  ∀ o, openPromise (this s') = Some o →
    ∃ op, opens s' !! o = Some op
          ∧ (open_promise op = Pending → openController (this s') = Some o).
Proof.
  intros Hwf Hstep c.
  destruct e; step_inv Hstep; intros Hctl; simplify_eq/=.
  all: try (by apply Hwf).
  all: try (rewrite lookup_snoc; by eauto).
  all: match goal with
       | H : openPromise (this _) = Some _ |- _ =>
           destruct (wf_open _ Hwf _ H) as (op & Hop & Hpend)
       end.
  all: lookup_cases; simplify_eq/=.
  all: try (by eauto).
  all: try (rewrite Hop; simpl; by eauto).
  all: try (eexists; split; [done|]; simpl; by intros ?; simplify_eq).
  all: try (eexists; split; [done|]; intros Hp; specialize (Hpend Hp); congruence).
Qed.

Lemma step_wf_close e s s' : wf s → step e s = Some s' →
  ∀ k, closePromise (this s') = Some k →
    closeController (this s') = Some k
    ∧ ∃ op, closes s' !! k = Some op ∧ k_finally op = false.
Proof.
  intros Hwf Hstep c.
  destruct e; step_inv Hstep; intros Hctl; simplify_eq/=.
  all: try (by apply Hwf).
  all: try (rewrite lookup_snoc; by eauto).
  all: match goal with
       | H : closePromise (this _) = Some _ |- _ =>
           destruct (wf_close _ Hwf _ H) as (Hcc & op & Hop & Hfin)
       end.
  all: split; [congruence|].
  all: lookup_cases; simplify_eq/=.
  all: try (by eauto).
  all: try (rewrite Hop; simpl; by eauto).
Qed.

Lemma step_wf_hook e s s' : wf s → step e s = Some s' →
  ∀ k op, closes s' !! k = Some op →
    k_hookPromise op = Some CatchOfClose ∨ k_hookPromise op = Some CatchOfHook.
Proof.
  intros Hwf Hstep k op.
  destruct e; step_inv Hstep; intros Hk; simplify_eq/=.
  all: try (by eapply Hwf).
  all: lookup_inv Hk; simpl.
  all: try (by eapply Hwf).
  all: try (by eauto).
  destruct (wf_hook _ Hwf _ _ E) as [Hx|Hx]; rewrite Hx in E0; simplify_eq/=; eauto.
Qed.

Lemma step_wf e s s' : wf s → step e s = Some s' → wf s'.
Proof.
  intros Hwf Hstep. split.
  - by eapply step_wf_controller.
  - by eapply step_wf_open.
  - by eapply step_wf_close.
  - by eapply step_wf_hook.
Qed.

Lemma reachable_wf s : reachable s → wf s.
Proof. apply reachable_invariant; [apply wf_init|]. intros. by eapply step_wf. Qed.

(** ** The counter *)

Ltac count_updates :=
  repeat match goal with
  | |- context [count_where ?f (?l ++ ?l')] => rewrite (count_where_app f l l'); simpl
  | H : ?l !! ?i = Some ?x |- context [count_where ?f (<[?i := ?y]> ?l)] =>
      let Hc := fresh "Hc" in
      pose proof (count_where_insert f l i x y H) as Hc; simpl in Hc;
      generalize dependent (count_where f (<[i := y]> l)); intros
  end.

Lemma counter_step e s s' : counter_inv s → step e s = Some s' → counter_inv s'.
Proof.
  unfold counter_inv, awaiting_opens, live_handles. intros Hinv Hstep.
  destruct e; step_inv Hstep; try done; count_updates;
    unfold live in *; simpl in *;
    repeat match goal with H : closed _ = _ |- _ => rewrite H in * end;
    simpl in *; lia.
Qed.

(** ** Runs *)

Lemma run_handles es s s' h hd :
  run es s = Some s' → handles s !! h = Some hd →
  ∃ hd', handles s' !! h = Some hd'
         ∧ h_value hd' = h_value hd ∧ h_close hd' = h_close hd
         ∧ (closed hd = true → closed hd' = true).
Proof.
  revert s hd. induction es as [|e es IH]; intros s hd Hrun Hh; simplify_eq/=; [eauto|].
  destruct (step e s) as [s1|] eqn:He; simplify_eq/=.
  destruct (step_handles _ _ _ _ _ He Hh) as (hd1 & Hh1 & Hv1 & Hc1 & Hcl1).
  destruct (IH _ _ Hrun Hh1) as (hd' & Hh' & Hv' & Hc' & Hcl').
  exists hd'. split_and!; [done|congruence|congruence|auto].
Qed.

Lemma run_closes es s s' k op :
  run es s = Some s' → closes s !! k = Some op →
  ∃ op', closes s' !! k = Some op'
         ∧ k_fn op' = k_fn op ∧ k_reason op' = k_reason op
         ∧ (is_Some (k_signal op) → k_signal op' = k_signal op)
         ∧ (k_closePromise op ≠ Pending → k_closePromise op' = k_closePromise op)
         ∧ (k_finally op = true → k_finally op' = true).
Proof.
  revert s op. induction es as [|e es IH]; intros s op Hrun Hk; simplify_eq/=.
  { exists op. by split_and!. }
  destruct (step e s) as [s1|] eqn:He; simplify_eq/=.
  destruct (step_closes _ _ _ _ _ He Hk) as (op1 & Hk1 & Hf1 & Hr1 & Hs1 & Hp1 & Hfin1).
  destruct (IH _ _ Hrun Hk1) as (op' & Hk' & Hf' & Hr' & Hs' & Hp' & Hfin').
  exists op'. split_and!; [done|congruence|congruence| | |auto].
  - intros Hsome. rewrite Hs', Hs1; [done|done|]. by rewrite Hs1.
  - intros Hne. rewrite Hp', Hp1; [done|done|]. by rewrite Hp1.
Qed.

Lemma step_signal_reason e s s' signal r :
  step e s = Some s' → signal_reason signal s = Some r → signal_reason signal s' = Some r.
Proof. destruct signal as [sid|]; simpl; [apply step_signals|done]. Qed.

(** A call that is failing with [error] can only stay so. *)
Lemma failing_moves error s s' tk tk' :
  failing error tk → tk' = tk ∨ moves s s' tk tk' → failing error tk'.
Proof.
  intros Hf [-> | Hm]; [done|].
  destruct Hf as [[o ->] | [[k ->] | ->]]; simpl in Hm; done.
Qed.

Lemma run_failing es s s' t tk error :
  run es s = Some s' → tasks s !! t = Some tk → failing error tk →
  ∃ tk', tasks s' !! t = Some tk' ∧ failing error tk'.
Proof.
  revert s tk. induction es as [|e es IH]; intros s tk Hrun Ht Hf; simplify_eq/=; [eauto|].
  destruct (step e s) as [s1|] eqn:He; simplify_eq/=.
  destruct (step_tasks _ _ _ _ _ He Ht) as (tk1 & Ht1 & Hm).
  eapply IH; [done|done|]. by eapply failing_moves.
Qed.

Lemma failing_done error r : failing error (Done r) → r = Thrown error.
Proof. intros [[? ?]|[[? ?]|?]]; congruence. Qed.

Lemma reachable_state_after es : is_Some (run es init) → reachable (state_after es).
Proof. intros [s Hs]. exists es. unfold state_after. by rewrite Hs. Qed.

(** ** The synchronous blocks *)

Lemma close_fields cl reason hooks s k s' :
  close_ cl reason hooks s = (k, s') →
  k = length (closes s)
  ∧ this s' = set_close (Some k) (Some k) (this s)
  ∧ opens s' = opens s ∧ signals s' = signals s ∧ handles s' = handles s
  ∧ tasks s' = tasks s ∧ reported s' = reported s
  ∧ ∃ op, closes s' = closes s ++ [op]
          ∧ k_fn op = cl ∧ k_reason op = reason ∧ k_signal op = None
          ∧ k_closePromise op = Pending ∧ k_finally op = false.
Proof.
  unfold close_. destruct (call_hooks _ _ _ _) as [hp log]. intros [= <- <-]. simpl.
  split_and!; try done. by eexists.
Qed.

Lemma open_catch_fields error s tk s' :
  open_catch error s = (tk, s') →
  this s' = set_count (count (this s) - 1) (this s)
  ∧ closes s' = closes s ∧ signals s' = signals s ∧ handles s' = handles s
  ∧ tasks s' = tasks s ∧ reported s' = reported s ∧ acquired s' = acquired s
  ∧ (count (this s) - 1 ≠ 0 ∧ tk = Done (Thrown error) ∧ opens s' = opens s
     ∨ count (this s) - 1 = 0
       ∧ tk = CatchAwaitOpen (openPromise (this s)) error
       ∧ opens s' = match openController (this s) with
                    | Some c => alter (abort_open c error) c (opens s)
                    | None => opens s
                    end).
Proof.
  unfold open_catch. simpl. case_decide as Hc.
  - destruct (openController (this s)) as [c|] eqn:Hctl; intros [= <- <-]; simpl;
      split_and!; try done; right; by rewrite ?Hctl.
  - intros [= <- <-]; simpl. split_and!; try done. by left.
Qed.

Lemma call_hooks_log k n hookPromise log :
  call_hooks k n hookPromise log =
    match hookPromise, n with
    | None, S n' => (Some HookRaw, log ++ (k, true) :: replicate n' (k, false))
    | _, _ => (hookPromise, log ++ replicate n (k, false))
    end.
Proof.
  revert hookPromise log. induction n as [|n IH]; intros hp log; simpl.
  - destruct hp; by rewrite app_nil_r.
  - destruct hp as [x|]; simpl; rewrite IH; simpl.
    + by rewrite <- app_assoc.
    + by rewrite <- app_assoc.
Qed.

(** ** Waiting calls *)

Lemma step_finalized e s s' k : step e s = Some s' → finalized s k → finalized s' k.
Proof.
  intros He (op & Hk & Hfin).
  destruct (step_closes _ _ _ _ _ He Hk) as (op' & Hk' & _ & _ & _ & _ & Hfin').
  exists op'. auto.
Qed.

(** A call waiting for a close (line 141) gets past the wait only when the
    close is finalized, or ends by throwing. *)
Lemma run_waits_close es s s' t k signal :
  run es s = Some s' → tasks s !! t = Some (OpenAwaitClose k signal) →
  tasks s' !! t = Some (OpenAwaitClose k signal)
  ∨ (∃ r, tasks s' !! t = Some (Done (Thrown r)))
  ∨ finalized s' k.
Proof.
  intros Hrun Ht.
  apply (run_invariant (λ s, tasks s !! t = Some (OpenAwaitClose k signal)
                             ∨ (∃ r, tasks s !! t = Some (Done (Thrown r)))
                             ∨ finalized s k)) with es s; [|by left|done].
  clear. intros e s s' [Ht|[[r Ht]|Hfin]] He.
  - destruct (step_tasks _ _ _ _ _ He Ht) as (tk' & Ht' & [->|Hm]); [by left|].
    simpl in Hm. destruct Hm as [(op & o & Hk & Hfin & _)|(r & _ & ->)].
    + right; right. eapply step_finalized; [done|]. by exists op.
    + right; left. eauto.
  - destruct (step_tasks _ _ _ _ _ He Ht) as (tk' & Ht' & [->|Hm]); [|done].
    right; left. eauto.
  - right; right. by eapply step_finalized.
Qed.

Lemma step_rejected_open e s s' o error :
  step e s = Some s' → rejected_open s o error → rejected_open s' o error.
Proof.
  intros He (op & Ho & Hrej).
  destruct (step_opens _ _ _ _ _ He Ho) as (op' & Ho' & Hp & _).
  exists op'. split; [done|]. rewrite Hp; [done|]. by rewrite Hrej.
Qed.

Lemma run_awaits_rejected es s s' t o signal error :
  run es s = Some s' → rejected_open s o error →
  tasks s !! t = Some (OpenAwaitOpen o signal) →
  fails_or_waits s' t o signal error.
Proof.
  intros Hrun Hrej Ht.
  cut (rejected_open s' o error ∧ fails_or_waits s' t o signal error); [by intros []|].
  apply (run_invariant (λ s, rejected_open s o error ∧ fails_or_waits s t o signal error))
    with es s; [|by split; [|exists (OpenAwaitOpen o signal); auto]|done].
  clear. intros e s s' [Hrej (tk & Ht & Hcase)] He.
  split; [by eapply step_rejected_open|].
  destruct (step_tasks _ _ _ _ _ He Ht) as (tk' & Ht' & Hm).
  exists tk'. split; [done|].
  destruct Hcase as [->|[Hf|(reason & Hsig & Hf)]].
  - destruct Hm as [->|Hm]; [by left|]. simpl in Hm.
    destruct Hrej as (op & Ho & Hrej).
    destruct Hm as [(op' & cv & h & Ho' & Hful & _)|[(op' & e' & Ho' & Hrej' & Hf)|
                    (r & Hsig & Hf)]].
    + congruence.
    + right; left. congruence.
    + right; right. exists r. split; [by eapply step_signal_reason|done].
  - right; left. by eapply failing_moves.
  - right; right. exists reason. split; [by eapply step_signal_reason|].
    by eapply failing_moves.
Qed.

(** With an empty open slot, a call awaiting a rejected open finishes in
    one or two resumptions, throwing the open's reason. *)
Lemma resume_rejected_wait s t o signal error :
  tasks s !! t = Some (OpenAwaitOpen o signal) →
  rejected_open s o error →
  openPromise (this s) = None →
  ∃ s1, step (Resume t 0) s = Some s1
        ∧ (tasks s1 !! t = Some (Done (Thrown error))
           ∨ ∃ s2, step (Resume t 0) s1 = Some s2
                   ∧ tasks s2 !! t = Some (Done (Thrown error))).
Proof.
  intros Ht (op & Ho & Hrej) Hslot.
  assert (t < length (tasks s))%nat as Hlt by (by eapply lookup_lt_Some).
  destruct (open_catch error s) as [tk sc] eqn:Hcatch.
  exists (set_task t tk sc). split.
  { simpl. unfold resume. rewrite Ht. simpl. rewrite Ho. simpl.
    by rewrite Hrej, Hcatch. }
  apply open_catch_fields in Hcatch as (_ & _ & _ & _ & Htasks & _ & _ & Hcase).
  assert (tasks (set_task t tk sc) !! t = Some tk) as Ht'.
  { simpl. rewrite Htasks. by apply list_lookup_insert_eq. }
  destruct Hcase as [(_ & -> & _)|(_ & -> & _)]; [by left|right].
  rewrite Hslot in Ht' |- *. eexists. split.
  { unfold step, resume. rewrite Ht'. simpl. done. }
  simpl. apply list_lookup_insert_eq. by rewrite length_insert, Htasks.
Qed.

(** While the open slot keeps the same open, no event calls the opener. *)
Lemma opener_not_called_while_slot_held e s s' o :
  step e s = Some s' →
  openPromise (this s) = Some o → openPromise (this s') = Some o →
  length (opens s') = length (opens s).
Proof.
  intros Hstep Ho Ho'. destruct e; step_inv Hstep;
    rewrite ?length_insert, ?length_alter; simplify_eq/=; try done.
Qed.

(** Single flight: a pending open stays in the slot, and the opener is not
    called again, through every event but the end of a close and the
    settlement of that open. *)
Lemma slot_kept_step e s s' o :
  wf s → step e s = Some s' →
  openPromise (this s) = Some o → pending_open s o → ¬ ends_open o e →
  openPromise (this s') = Some o ∧ pending_open s' o
  ∧ length (opens s') = length (opens s).
Proof.
  intros Hwf Hstep Hslot (op & Ho & Hpend) Hends. unfold ends_open, pending_open in *.
  pose proof (wf_open _ Hwf _ Hslot) as (op' & Ho' & Hctl).
  rewrite Ho in Ho'. simplify_eq. specialize (Hctl Hpend).
  destruct e; step_inv Hstep; rewrite ?length_insert, ?length_alter;
    simplify_eq/=; try (by eauto 10).
  all: try (exfalso; apply Hends; by eauto).
  all: lookup_cases; try rewrite Ho; simpl; try (by eauto 10).
  all: try (exfalso; apply Hends; by eauto).
Qed.

Lemma single_flight_while_open_pending es s s' o :
  wf s → run es s = Some s' →
  openPromise (this s) = Some o → pending_open s o →
  Forall (λ e, ¬ ends_open o e) es →
  openPromise (this s') = Some o ∧ pending_open s' o
  ∧ length (opens s') = length (opens s).
Proof.
  revert s. induction es as [|e es IH]; intros s Hwf Hrun Hslot Hpend Hes; simplify_eq/=.
  { done. }
  destruct (step e s) as [s1|] eqn:He; simplify_eq/=.
  apply Forall_cons in Hes as [He1 Hes].
  destruct (slot_kept_step _ _ _ _ Hwf He Hslot Hpend He1) as (Hslot1 & Hpend1 & Hlen1).
  destruct (IH s1) as (? & ? & ?); [by eapply step_wf|done..|].
  split_and!; [done|done|congruence].
Qed.

(** ** Where the error of a call comes from *)

Lemma step_thrown_source e s s' x :
  step e s = Some s' → thrown_source s x → thrown_source s' x.
Proof.
  intros He [-> | [-> | [[sid Hsid] | [[o Ho] | (k & op & Hk & Hrej)]]]].
  - by left.
  - by right; left.
  - right; right; left. exists sid. by eapply step_signals.
  - right; right; right; left. exists o. by eapply step_rejected_open.
  - right; right; right; right.
    destruct (step_closes _ _ _ _ _ He Hk) as (op' & Hk' & _ & _ & _ & Hp & _).
    exists k, op'. split; [done|]. rewrite Hp; [done|]. by rewrite Hrej.
Qed.

Lemma failing_error_of x tk : failing x tk → error_of tk = Some x.
Proof. by intros [[? ->] | [[? ->] | ->]]. Qed.

Lemma signal_reason_source s signal r :
  signal_reason signal s = Some r → thrown_source s r.
Proof. destruct signal as [sid|]; [|done]. intros Hr. right; right; left. by exists sid. Qed.

Lemma step_spawned e s s' t tk x :
  step e s = Some s' → tasks s !! t = None → tasks s' !! t = Some tk →
  error_of tk = Some x → thrown_source s' x.
Proof.
  intros Hstep Hnone Ht Herr. destruct e; step_inv Hstep; try congruence.
  all: try (rewrite list_lookup_insert_ne in Ht by (intros ->; congruence); congruence).
  all: apply lookup_snoc_Some in Ht as [[_ Ht]|[_ <-]]; try congruence.
  all: simplify_eq/=.
  all: try (by eapply signal_reason_source).
  all: try (by right; left).
  all: try (by left).
Qed.

Lemma step_errors_sourced e s s' :
  errors_sourced s → step e s = Some s' → errors_sourced s'.
Proof.
  intros Hsrc He t tk' x Ht' Herr.
  destruct (tasks s !! t) as [tk|] eqn:Ht; [|by eapply step_spawned].
  destruct (step_tasks _ _ _ _ _ He Ht) as (tk1 & Ht1 & Hm). simplify_eq.
  destruct Hm as [-> | Hm]; [eapply step_thrown_source; eauto|].
  eapply step_thrown_source; [done|].
  destruct tk as [k signal|o signal|o error|k error|k|r]; simpl in Hm.
  - destruct Hm as [(op & o & _ & _ & -> & _)|(r & Hr & ->)]; simplify_eq/=.
    by eapply signal_reason_source.
  - destruct Hm as [(op & cv & h & _ & _ & -> & _)|[(op & e' & Ho & Hrej & Hf)|
                    (r & Hsig & Hf)]]; simplify_eq/=.
    + apply failing_error_of in Hf. simplify_eq.
      right; right; right; left. exists o. by exists op.
    + apply failing_error_of in Hf. simplify_eq. by eapply signal_reason_source.
  - apply failing_error_of in Hm. simplify_eq. by eapply (Hsrc t _ _ Ht).
  - apply failing_error_of in Hm. simplify_eq. by eapply (Hsrc t _ _ Ht).
  - destruct Hm as (op & Hk & [[_ ->]|(e' & Hrej & ->)]); simplify_eq/=.
    right; right; right; right. eauto.
  - done.
Qed.

Lemma reachable_errors_sourced s : reachable s → errors_sourced s.
Proof.
  apply reachable_invariant; [by intros t tk e Ht|].
  intros. by eapply step_errors_sourced.
Qed.

(** ** The calls of the close function *)

Lemma step_close_called e s s' :
  step e s = Some s' → length (closes s') ≠ length (closes s) →
  ∃ op, closes s' = closes s ++ [op]
        ∧ count (this s') = count (this s) - (if e is CallClose _ _ _ then 1 else 0)
        ∧ (closes_last_handle e s (k_fn op) ∨ closes_unreferenced_open e s (k_fn op)).
Proof.
  intros Hstep. unfold closes_last_handle, closes_unreferenced_open.
  destruct e; step_inv Hstep; rewrite ?length_insert, ?length_alter; try done; intros _.
  all: eexists; split; [done|]; simpl; split; [lia|].
  all: first [ left; eexists _, _, _, _; split_and!; [done|eassumption|done|done|lia]
             | right; eexists _, _, _, _, _, _; split_and!; [done|eassumption|eassumption|eassumption|done] ].
Qed.


(** ** The counter while a call waits at line 198 *)

Lemma existsb_snoc {A} (f : A → bool) l x : existsb f (l ++ [x]) = existsb f l || f x.
Proof. rewrite existsb_app. simpl. by rewrite orb_false_r. Qed.

Lemma existsb_insert {A} (f : A → bool) l i x :
  existsb f (<[i := x]> l) = true → f x = true ∨ existsb f l = true.
Proof.
  revert i. induction l as [|y l IH]; intros [|i]; simpl; try (by auto).
  - intros [?|?]%orb_true_iff; [by left|right]. apply orb_true_iff. by right.
  - intros [?|?]%orb_true_iff.
    + right. apply orb_true_iff. by left.
    + destruct (IH _ H); [by left|right]. apply orb_true_iff. by right.
Qed.

Lemma existsb_lookup {A} (f : A → bool) l i x :
  l !! i = Some x → f x = true → existsb f l = true.
Proof.
  revert i. induction l as [|y l IH]; intros [|i] Hi Hx; simplify_eq/=.
  - by rewrite Hx.
  - rewrite (IH _ Hi Hx). apply orb_true_r.
Qed.

(** The counter stays 0 while a call waits at line 198, as long as no
    [open()] increments it meanwhile: no other event can, since none holds
    a reference. *)
Lemma step_unreferenced_wait e s s' :
  unreferenced_wait s → enters e s && abandoned s = false → 0 ≤ count (this s') →
  step e s = Some s' → unreferenced_wait s'.
Proof.
  unfold unreferenced_wait, abandoned, enters. intros Hinv Hent Hpos Hstep.
  destruct e; step_inv Hstep; rewrite ?existsb_snoc, ?orb_false_r; try done.
  all: rewrite ?E, ?E0, ?E1 in Hent; simpl in Hent.
  all: intros Hab; try apply existsb_insert in Hab as [Hab|Hab]; simplify_eq/=;
    try (specialize (Hinv Hab)); try lia; congruence.
Qed.

Lemma run_unreferenced_wait es s s' :
  counter_inv s → unreferenced_wait s → unjoined es s = true → run es s = Some s' →
  unreferenced_wait s' ∧ counter_inv s'.
Proof.
  revert s. induction es as [|e es IH]; intros s Hc Hinv Hun Hrun; simplify_eq/=.
  { done. }
  destruct (step e s) as [s1|] eqn:He; simplify_eq/=.
  apply andb_true_iff in Hun as [Hent Hun]. apply negb_true_iff in Hent.
  assert (counter_inv s1) as Hc1 by (by eapply counter_step).
  apply (IH s1); [done| |done|done].
  eapply step_unreferenced_wait; [done|done| |done]. unfold counter_inv in Hc1. lia.
Qed.

(** ** The open slot and its controller *)

Lemma step_slot_controller e s s' :
  slot_controller s → step e s = Some s' → slot_controller s'.
Proof.
  intros Hinv Hstep o c. unfold slot_controller in Hinv.
  destruct e; step_inv Hstep; intros Ho Hc; simplify_eq/=; try (by eapply Hinv);
    try congruence.
Qed.

Lemma reachable_slot_controller s : reachable s → slot_controller s.
Proof.
  apply reachable_invariant; [by intros o c Ho|]. intros e s1 s2. apply step_slot_controller.
Qed.


(** * Scenarios of the specification *)

(** Scenario A: three concurrent opens, one call of the opener, three
    handles on the same value; closing two leaves the resource open, closing
    the third calls the close function once. *)
Example scenario_A :
  ∃ s, run [CallOpen None; CallOpen None; CallOpen None;
            OpenerSettles 0 (inl conn);
            Resume 0 0; Resume 1 0; Resume 2 0;
            CallClose 0 Undefined 0; CallClose 1 Undefined 0] init = Some s
       ∧ length (opens s) = 1%nat
       ∧ h_value <$> handles s = [Data 7; Data 7; Data 7]
       ∧ closes s = []
       ∧ ∃ s', step (CallClose 2 Undefined 0) s = Some s'
               ∧ length (closes s') = 1%nat.
Proof. eexists. split; [vm_compute; reflexivity|]. vm_compute. eauto 10. Qed.

(** Scenario B: two opens before the opener settles; the close function is
    called once, by the second [close()]. *)
Example scenario_B :
  ∃ s1 s2, run (two_handles ++ [CallClose 0 Undefined 0]) init = Some s1
           ∧ closes s1 = []
           ∧ step (CallClose 1 Undefined 0) s1 = Some s2
           ∧ k_fn <$> closes s2 = [close conn].
Proof.
  do 2 eexists. split; [vm_compute; reflexivity|]. split; [done|].
  split; [vm_compute; reflexivity|]. done.
Qed.

(** Scenario C: the opener rejects with [boom]; the caller rejects with
    [boom]; the next [open()] calls the opener again. *)
Example scenario_C :
  ∃ s, run [CallOpen None; OpenerSettles 0 (inr boom); Resume 0 0; Resume 0 0;
            CallOpen None] init = Some s
       ∧ tasks s = [Done (Thrown boom); OpenAwaitOpen 1 None]
       ∧ open_promise <$> opens s = [Rejected boom; Pending].
Proof. eexists. split; [vm_compute; reflexivity|]. done. Qed.

(** * The claims *)

(** ** C1: single-flight open *)

(** C1 (the code departs from the claim): after [overlapping_closes] a close
    is in flight that [#closeController] and [#closePromise] no longer show.
    An [open()] (task 3) then starts open 1; the close settles and its
    [.finally] clears [#openPromise] under that pending open; a second
    [open()] (task 4), made before the opener has settled, calls the opener
    again (open 2).  The two concurrent calls get handles on different
    values. *)
Theorem concurrent_opens_run_opener_twice :
  ∃ s0 s1 s2,
    run overlapping_closes init = Some s0
    ∧ run [CallOpen None; CloseSettles 1 None; CatchReaction 1; FinallyReaction 1;
           CallOpen None] s0 = Some s1
    ∧ tasks s1 !! 3%nat = Some (OpenAwaitOpen 1 None)
    ∧ tasks s1 !! 4%nat = Some (OpenAwaitOpen 2 None)
    ∧ open_promise <$> opens s1 = [Fulfilled conn; Pending; Pending]
    ∧ run [OpenerSettles 1 (inl {| value := Data 2; close := 1 |});
           OpenerSettles 2 (inl {| value := Data 3; close := 2 |});
           Resume 3 0; Resume 4 0] s1 = Some s2
    ∧ tasks s2 !! 3%nat = Some (Done (Returned 1))
    ∧ tasks s2 !! 4%nat = Some (Done (Returned 2))
    ∧ h_value <$> handles s2 = [Data 7; Data 2; Data 3].
Proof.
  do 3 eexists. split; [vm_compute; reflexivity|].
  split; [vm_compute; reflexivity|]. do 3 (split; [reflexivity|]).
  split; [vm_compute; reflexivity|]. done.
Qed.

(** ** C2: when the close function is called *)

(** C2 (counterexample): the close function is called without any handle
    having been issued (the safeguard of a cancelled last reference), and
    it is called twice in one episode (one call of the opener) when an
    [open()] supersedes the first close. *)
Lemma close_without_handle_and_twice :
  (∃ s, run (cancelled_last ++ [CancelWait 0; OpenerSettles 0 (inl conn); Resume 0 0])
            init = Some s
        ∧ handles s = []
        ∧ k_fn <$> closes s = [close conn])
  ∧ (∃ s, run (closing ++ superseded ++ [CallClose 1 Undefined 0]) init = Some s
          ∧ length (opens s) = 1%nat
          ∧ k_fn <$> closes s = [close conn; close conn]).
Proof.
  split; eexists; (split; [vm_compute; reflexivity|]); done.
Qed.

(** The runs that the last part of the statement below leaves out are those
    of the defect of C1: in [joined_abandoned] a second caller has joined
    the open while the first waits at line 198; when the first resumes, it
    calls the close function although the counter is 1 and the second caller
    holds a handle on the value, since line 198 does not read the counter
    again after its wait. *)
Example joined_open_closed_under_handle :
  ∃ s s', run joined_abandoned init = Some s
          ∧ unjoined joined_abandoned init = false
          ∧ step (Resume 0 0) s = Some s'
          ∧ count (this s) = 1 ∧ count (this s') = 1
          ∧ live_handles s' = 1%nat
          ∧ k_fn <$> closes s' = [close conn].
Proof.
  do 2 eexists. split; [vm_compute; reflexivity|]. split; [vm_compute; reflexivity|].
  split; [vm_compute; reflexivity|]. done.
Qed.

(** C2 (amended): an event calls the close function only in two ways: a
    handle's first [close()] takes the counter from 1 to 0, or an [open()]
    that had decremented the counter to 0 in its [catch] block finds that the
    open it awaited has a value.  A handle's [close()] that leaves the
    counter non-zero calls no close function; one that takes it from 1 to 0
    calls the handle's close function once, with the caller's reason; a call
    enters the [catch] block's wait only by its own decrement from 1 to 0.
    Along every run in which no [open()] increments the counter while a call
    waits at line 198, the counter is 0 whenever the close function is
    called, on either way: no call awaits the open and no handle is live. *)
Theorem close_called_on_zero_transition e s s' :
  step e s = Some s' →
  (length (closes s') ≠ length (closes s) →
     ∃ op, closes s' = closes s ++ [op]
           ∧ (closes_last_handle e s (k_fn op)
              ∨ closes_unreferenced_open e s (k_fn op)))
  ∧ (∀ h reason hooks, e = CallClose h reason hooks →
       count (this s') ≠ 0 → closes s' = closes s)
  ∧ (∀ h reason hooks hd, e = CallClose h reason hooks →
       handles s !! h = Some hd → closed hd = false → count (this s) = 1 →
       count (this s') = 0
       ∧ ∃ op, closes s' = closes s ++ [op]
               ∧ k_fn op = h_close hd ∧ k_reason op = reason)
  ∧ (∀ t o error, tasks s' !! t = Some (CatchAwaitOpen o error) →
       tasks s !! t ≠ Some (CatchAwaitOpen o error) →
       count (this s) = 1 ∧ count (this s') = 0)
  ∧ (∀ es, run es init = Some s → unjoined es init = true →
       length (closes s') ≠ length (closes s) →
       count (this s') = 0 ∧ awaiting_opens s' = 0%nat ∧ live_handles s' = 0%nat).
Proof.
  intros Hstep. split_and!.
  - intros Hlen. destruct (step_close_called _ _ _ Hstep Hlen) as (op & ? & _ & ?). eauto.
  - intros h reason hooks -> Hpos. step_inv Hstep; done.
  - intros h reason hooks hd -> Hh Hcl Hone.
    step_inv Hstep; simplify_eq; try congruence; try lia.
    all: (split; [lia|]); eexists; by split_and!.
  - intros t o error Ht' Ht. destruct e; step_inv Hstep; try done.
    all: lookup_inv Ht'; try done.
    all: try lia.
  - intros es Hrun Hun Hlen.
    destruct (run_unreferenced_wait es init s) as [Hinv Hc]; [done|done|done|done|].
    assert (counter_inv s') as Hc' by (by eapply counter_step).
    assert (count (this s') = 0) as Hz; [|unfold counter_inv in Hc'; split; [done|lia]].
    destruct (step_close_called _ _ _ Hstep Hlen) as (op & _ & Hcount & [Hl|Hu]).
    + destruct Hl as (h & reason & hooks & hd & -> & _ & _ & _ & Hone). lia.
    + destruct Hu as (t & hooks & o & error & op' & cv & -> & Ht & _).
      rewrite Hcount. simpl. rewrite Z.sub_0_r. apply Hinv.
      by eapply existsb_lookup.
Qed.

Lemma close_called_on_zero_transition_witness :
  (∃ op, closes (state_after closing) = closes (state_after one_handle) ++ [op]
         ∧ k_fn op = close conn ∧ k_reason op = Undefined)
  ∧ count (this (state_after (cancelled_last ++
              [CancelWait 0; OpenerSettles 0 (inl conn); Resume 0 0]))) = 0.
Proof.
  split.
  - destruct (close_called_on_zero_transition (CallClose 0 Undefined 0)
                (state_after one_handle) (state_after closing))
      as (_ & _ & Hlast & _); [vm_compute; reflexivity|].
    destruct (Hlast 0%nat Undefined 0%nat
                {| h_value := Data 7; h_close := 0; closed := false |})
      as [_ Hop]; [reflexivity|reflexivity|reflexivity|reflexivity|exact Hop].
  - destruct (close_called_on_zero_transition (Resume 0 0)
                (state_after (cancelled_last ++ [CancelWait 0; OpenerSettles 0 (inl conn)]))
                (state_after (cancelled_last ++
                   [CancelWait 0; OpenerSettles 0 (inl conn); Resume 0 0])))
      as (_ & _ & _ & _ & Hzero); [vm_compute; reflexivity|].
    destruct (Hzero (cancelled_last ++ [CancelWait 0; OpenerSettles 0 (inl conn)]))
      as [Hz _]; [vm_compute; reflexivity|vm_compute; reflexivity|vm_compute; lia|exact Hz].
Defined.

(** ** C3: what the counter counts *)

(** C3 (counterexample): after one [open()] whose opener is still pending
    the counter is 1 and no handle has been issued. *)
Lemma counter_counts_waiting_opens :
  ∃ s, run [CallOpen None] init = Some s
       ∧ handles s = []
       ∧ count (this s) ≠ Z.of_nat (live_handles s).
Proof. eexists. split; [vm_compute; reflexivity|]. split; [done|]. vm_compute. done. Qed.

(** C3 (amended): in every reachable state the counter is at least 0 and
    equals the number of [open()] calls that have incremented it and still
    await the shared open, plus the number of handles whose [close()] has
    not been called. *)
Theorem counter_invariant s :
  reachable s →
  0 ≤ count (this s)
  ∧ count (this s) = Z.of_nat (awaiting_opens s + live_handles s).
Proof.
  intros Hs. assert (counter_inv s) as Hinv.
  { revert s Hs. apply reachable_invariant; [done|]. intros. by eapply counter_step. }
  unfold counter_inv in Hinv. split; [lia|done].
Qed.

Lemma counter_invariant_witness :
  0 ≤ count (this (state_after (two_handles ++ [CallOpen None; CallClose 0 Undefined 0])))
  ∧ count (this (state_after (two_handles ++ [CallOpen None; CallClose 0 Undefined 0])))
    = Z.of_nat
        (awaiting_opens (state_after (two_handles ++ [CallOpen None; CallClose 0 Undefined 0]))
         + live_handles (state_after (two_handles ++ [CallOpen None; CallClose 0 Undefined 0]))).
Proof.
  apply counter_invariant. apply reachable_state_after. vm_compute. by eexists.
Defined.

(** ** C4: an [open()] that arrives while a close is in flight *)

(** C4 (counterexample): the [open()] that superseded close 0 returns a
    handle on the value of the open already in the slot; the opener is not
    called again. *)
Lemma superseding_open_reuses_cached_value :
  ∃ s0 s,
    run closing init = Some s0
    ∧ closePromise (this s0) = Some 0%nat
    ∧ run superseded s0 = Some s
    ∧ tasks s !! 2%nat = Some (Done (Returned 1))
    ∧ h_value <$> handles s !! 1%nat = Some (value conn)
    ∧ length (opens s) = length (opens s0).
Proof.
  do 2 eexists. split; [vm_compute; reflexivity|]. split; [reflexivity|].
  split; [vm_compute; reflexivity|]. done.
Qed.

(** C4 (amended): when [open()] is called with a signal that is not aborted
    while the close slot holds the close [k] ([#closePromise] is set), the
    token of that close is aborted and the call waits at line 141 without
    touching the counter or the open slot.  The call cannot resume before
    the [.finally] reaction of the close has run, and returns no handle
    before; that reaction can run as soon as the [.catch] reaction has, and
    since the close is aborted it leaves the open slot as it is.  Once the
    close is finalized the call can resume: it increments the counter and
    joins the open it finds in the slot without calling the opener, or calls
    the opener if the slot is empty. *)
Theorem open_supersedes_close s signal k s' :
  reachable s →
  closePromise (this s) = Some k →
  signal_reason signal s = None →
  step (CallOpen signal) s = Some s' →
  (∃ op, closes s' !! k = Some op ∧ is_Some (k_signal op))
  ∧ tasks s' = tasks s ++ [OpenAwaitClose k signal]
  ∧ this s' = this s ∧ opens s' = opens s
  ∧ (∀ es s1 h, run es s' = Some s1 →
       tasks s1 !! length (tasks s) = Some (Done (Returned h)) → finalized s1 k)
  ∧ (∀ es s1 s2, run es s' = Some s1 → step (FinallyReaction k) s1 = Some s2 →
       openPromise (this s2) = openPromise (this s1) ∧ opens s2 = opens s1)
  ∧ (∀ s1 hooks s2 o,
       tasks s1 !! length (tasks s) = Some (OpenAwaitClose k signal) →
       openPromise (this s1) = Some o →
       step (Resume (length (tasks s)) hooks) s1 = Some s2 →
       opens s2 = opens s1
       ∧ tasks s2 !! length (tasks s) = Some (OpenAwaitOpen o signal))
  ∧ (∀ es s1 op1, run es s' = Some s1 → closes s1 !! k = Some op1 →
       k_caught op1 = true → k_finally op1 = false →
       ∃ s2, step (FinallyReaction k) s1 = Some s2 ∧ finalized s2 k
             ∧ openPromise (this s2) = openPromise (this s1) ∧ opens s2 = opens s1)
  ∧ (∀ s1 hooks,
       tasks s1 !! length (tasks s) = Some (OpenAwaitClose k signal) →
       (¬ finalized s1 k → step (Resume (length (tasks s)) hooks) s1 = None)
       ∧ (finalized s1 k →
            ∃ s2 o, step (Resume (length (tasks s)) hooks) s1 = Some s2
              ∧ tasks s2 !! length (tasks s) = Some (OpenAwaitOpen o signal)
              ∧ count (this s2) = count (this s1) + 1
              ∧ openPromise (this s2) = Some o
              ∧ (openPromise (this s1) = Some o ∧ opens s2 = opens s1
                 ∨ openPromise (this s1) = None ∧ o = length (opens s1)
                   ∧ opens s2 = opens s1 ++ [{| open_signal := None;
                                                open_promise := Pending |}]))).
Proof.
  intros Hs Hk Hsig Hstep. apply reachable_wf in Hs.
  destruct (wf_close _ Hs _ Hk) as (Hc & op & Hop & _).
  simpl in Hstep. unfold open in Hstep. rewrite Hsig, Hk, Hc in Hstep. simplify_eq/=.
  assert (alter (abort_close k) k (closes s) !! k = Some (abort_close k op)) as Hop'.
  { by rewrite list_lookup_alter_eq, Hop. }
  split_and!; try done.
  - exists (abort_close k op). split; [done|]. simpl. unfold abort.
    destruct (k_signal op); eauto.
  - intros es s1 h Hrun Hdone.
    destruct (run_waits_close es _ s1 (length (tasks s)) k signal Hrun)
      as [Ht|[[r Ht]|Hfin]]; [apply lookup_snoc|congruence|congruence|done].
  - intros es s1 s2 Hrun Hfin.
    destruct (run_closes _ _ _ _ _ Hrun Hop') as (op1 & Hop1 & _ & _ & Hsig1 & _).
    assert (is_Some (k_signal op1)) as [r Hr].
    { rewrite Hsig1; simpl; unfold abort; destruct (k_signal op); eauto. }
    simpl in Hfin. unfold finally_reaction in Hfin. rewrite Hop1 in Hfin. simpl in Hfin.
    rewrite Hr in Hfin. destruct (k_caught op1 && negb (k_finally op1)); by simplify_eq/=.
  - intros s1 hooks s2 o Ht Ho Hres. simpl in Hres. unfold resume in Hres.
    rewrite Ht in Hres. simpl in Hres.
    destruct (closes s1 !! k) as [op1|]; simplify_eq/=.
    destruct (k_finally op1); simplify_eq/=.
    unfold open_enter in Hres. simpl in Hres. rewrite Ho in Hres. simplify_eq/=.
    split; [done|]. apply list_lookup_insert_eq. by eapply lookup_lt_Some.
  - intros es s1 op1 Hrun Hop1 Hcaught Hfin.
    destruct (run_closes _ _ _ _ _ Hrun Hop') as (op2 & Hop2 & _ & _ & Hsig1 & _).
    simplify_eq.
    assert (is_Some (k_signal op1)) as [r Hr].
    { rewrite Hsig1; simpl; unfold abort; destruct (k_signal op); eauto. }
    simpl. unfold finally_reaction. rewrite Hop1. simpl. rewrite Hcaught, Hfin. simpl.
    rewrite Hr. eexists. split; [done|]. split; [|done].
    eexists. simpl. split; [apply list_lookup_insert_eq; by eapply lookup_lt_Some|done].
  - intros s1 hooks Ht. split.
    + intros Hnf. simpl. unfold resume. rewrite Ht. simpl.
      destruct (closes s1 !! k) as [op1|] eqn:Hop1; [|done]. simpl.
      destruct (k_finally op1) eqn:Hfin; [|done]. destruct Hnf. by exists op1.
    + intros (op1 & Hop1 & Hfin). simpl. unfold resume. rewrite Ht. simpl.
      rewrite Hop1. simpl. rewrite Hfin. unfold open_enter. simpl.
      assert (length (tasks s) < length (tasks s1))%nat as Hlt by (by eapply lookup_lt_Some).
      destruct (openPromise (this s1)) as [o|] eqn:Ho.
      * eexists _, o. split; [done|]. simpl.
        split; [by apply list_lookup_insert_eq|]. split; [done|]. split; [done|]. by left.
      * eexists _, (length (opens s1)). split; [done|]. simpl.
        split; [by apply list_lookup_insert_eq|]. split; [done|]. split; [done|]. by right.
Qed.

Lemma open_supersedes_close_witness :
  (∃ op, closes (state_after (closing ++ [CallOpen None])) !! 0%nat = Some op
         ∧ is_Some (k_signal op))
  ∧ tasks (state_after (closing ++ [CallOpen None]))
    = tasks (state_after closing) ++ [OpenAwaitClose 0 None]
  ∧ step (Resume 2 0) (state_after (closing ++ [CallOpen None; CloseSettles 0 None;
                                                CatchReaction 0])) = None
  ∧ ∃ s2 o, step (Resume 2 0)
              (state_after (closing ++ [CallOpen None; CloseSettles 0 None;
                                        CatchReaction 0; FinallyReaction 0])) = Some s2
            ∧ tasks s2 !! 2%nat = Some (OpenAwaitOpen o None).
Proof.
  destruct (open_supersedes_close (state_after closing) None 0%nat
              (state_after (closing ++ [CallOpen None])))
    as (Haborted & Htasks & _ & _ & _ & _ & _ & _ & Hresume).
  - apply reachable_state_after. vm_compute. by eexists.
  - reflexivity.
  - reflexivity.
  - vm_compute. reflexivity.
  - split; [exact Haborted|]. split; [exact Htasks|]. split.
    + destruct (Hresume (state_after (closing ++ [CallOpen None; CloseSettles 0 None;
                                                  CatchReaction 0])) 0%nat)
        as [Hwait _]; [reflexivity|].
      apply Hwait. intros (op & Hop & Hfin). vm_compute in Hop.
      injection Hop as <-. discriminate Hfin.
    + destruct (Hresume (state_after (closing ++ [CallOpen None; CloseSettles 0 None;
                                                  CatchReaction 0; FinallyReaction 0]))
                  0%nat) as [_ Hgo]; [reflexivity|].
      destruct Hgo as (s2 & o & Hstep & Ht & _).
      * eexists. split; [vm_compute; reflexivity|reflexivity].
      * exists s2, o. split; [exact Hstep|exact Ht].
Defined.

(** ** C5: a handle's [close()] works once *)

(** C5 (counterexample): the second [close()] of a handle raises nothing
    to its caller: the call hands back a promise, task 2, which is rejected
    with [AlreadyClosed]. *)
Lemma second_close_rejects_its_promise :
  ∃ s s', run closing init = Some s
          ∧ call_close 0 (Data 4) 0 s = Some (Promised 2, s')
          ∧ tasks s' !! 2%nat = Some (Done (Thrown AlreadyClosed))
          ∧ step (CallClose 0 (Data 4) 0) s = Some s'.
Proof. do 2 eexists. split; [vm_compute; reflexivity|]. done. Qed.

(** C5 (amended): once [close()] has been called on handle [h], whatever
    happens in between, a later call on [h] rejects with [AlreadyClosed] in
    the call itself, before any [await], and changes nothing else: no
    decrement, no call of the close function.  The error is not raised to
    the caller: [close()] being [async], the call hands back a promise and
    that promise is rejected.  The first call on a fresh handle marks it
    closed and decrements the counter. *)
Theorem handle_close_idempotent s0 s1 s2 s3 h r1 n1 es r2 n2 :
  step (CallClose h r1 n1) s0 = Some s1 →
  run es s1 = Some s2 →
  step (CallClose h r2 n2) s2 = Some s3 →
  (∀ hd, handles s0 !! h = Some hd → closed hd = false →
         count (this s1) = count (this s0) - 1)
  ∧ closed <$> handles s1 !! h = Some true
  ∧ s3 = spawn (Done (Thrown AlreadyClosed)) s2
  ∧ call_close h r2 n2 s2 = Some (Promised (length (tasks s2)), s3).
Proof.
  intros H1 Hrun H3.
  assert (closed <$> handles s1 !! h = Some true
          ∧ ∀ hd, handles s0 !! h = Some hd → closed hd = false →
                  count (this s1) = count (this s0) - 1) as [Hcl Hdec].
  { clear Hrun H3. step_inv H1; lookup_cases; simplify_eq/=;
      (split; [try done|intros; simplify_eq; congruence]).
    rewrite E. simpl. congruence. }
  split; [done|]. split; [done|].
  destruct (handles s1 !! h) as [hd1|] eqn:Hh1; simplify_eq/=.
  destruct (run_handles _ _ _ _ _ Hrun Hh1) as (hd2 & Hh2 & _ & _ & Hcl2).
  specialize (Hcl2 Hcl).
  unfold call_close. unfold handle_close in *. rewrite Hh2 in *. simpl in *.
  rewrite Hcl2 in *. by simplify_eq/=.
Qed.

Lemma handle_close_idempotent_witness :
  state_after (two_handles ++ [CallClose 0 Undefined 0; CallClose 1 (Data 3) 0;
                               CloseSettles 0 None; CallClose 0 (Data 4) 1])
  = spawn (Done (Thrown AlreadyClosed))
      (state_after (two_handles ++ [CallClose 0 Undefined 0; CallClose 1 (Data 3) 0;
                                    CloseSettles 0 None]))
  ∧ call_close 0 (Data 4) 1
      (state_after (two_handles ++ [CallClose 0 Undefined 0; CallClose 1 (Data 3) 0;
                                    CloseSettles 0 None]))
    = Some (Promised 4,
            state_after (two_handles ++ [CallClose 0 Undefined 0; CallClose 1 (Data 3) 0;
                                         CloseSettles 0 None; CallClose 0 (Data 4) 1])).
Proof.
  destruct (handle_close_idempotent
              (state_after two_handles)
              (state_after (two_handles ++ [CallClose 0 Undefined 0]))
              (state_after (two_handles ++ [CallClose 0 Undefined 0; CallClose 1 (Data 3) 0;
                                            CloseSettles 0 None]))
              (state_after (two_handles ++ [CallClose 0 Undefined 0; CallClose 1 (Data 3) 0;
                                            CloseSettles 0 None; CallClose 0 (Data 4) 1]))
              0%nat Undefined 0%nat
              [CallClose 1 (Data 3) 0; CloseSettles 0 None] (Data 4) 1%nat)
    as (_ & _ & Hsame & Hcall).
  - vm_compute. reflexivity.
  - vm_compute. reflexivity.
  - vm_compute. reflexivity.
  - split; [exact Hsame|exact Hcall].
Defined.

(** ** C6: the failure path of [open()] *)

(** C6 (counterexample): the close called by the safeguard rejects with
    [Data 5]; the caller rejects with its own reason [Data 9] and nothing is
    ever passed to [reportError]. *)
Lemma safeguard_error_discarded :
  ∃ s, run (cancelled_last ++
            [CancelWait 0; OpenerSettles 0 (inl conn); Resume 0 0;
             CloseSettles 0 (Some (Data 5)); Resume 0 0;
             CatchReaction 0; FinallyReaction 0]) init = Some s
       ∧ k_closePromise <$> closes s = [Rejected (Data 5)]
       ∧ tasks s = [Done (Thrown (Data 9))]
       ∧ reported s = []
       ∧ step (CatchReaction 0) s = None.
Proof. eexists. split; [vm_compute; reflexivity|]. done. Qed.

(** C6 (amended): when the wait of a caller on the shared open fails or is
    cancelled with [error], the call resumes; the counter is decremented and
    nothing is reported.  If the counter is still not zero the call rejects
    with [error] at once.  If it is zero, the controller in
    [#openController], if any, is aborted and the call awaits the open in
    the slot, a wait that cannot be cancelled: while that open is pending
    the call cannot resume; if the slot is empty or that open is rejected,
    the call resumes and rejects with [error]; if that open has a value, the
    call resumes and calls the close function of the value with [error],
    then waits for the promise it returns; while that promise is pending the
    call cannot resume, and once it has settled, fulfilled or rejected, the
    call resumes and rejects with [error].  None of these steps reports
    anything, and neither does the [.catch] reaction of a close whose hook
    was not taken: an error of the safeguard's close is dropped (a rejection
    of a hook it took is handled as for any close).  In all cases the call
    can only end by rejecting with [error]. *)
Theorem failed_open_unwinds s e t o signal error :
  reachable s →
  tasks s !! t = Some (OpenAwaitOpen o signal) →
  wait_fails e s t o signal error →
  ∃ s', step e s = Some s'
    ∧ count (this s') = count (this s) - 1
    ∧ (count (this s') ≠ 0 →
         tasks s' !! t = Some (Done (Thrown error)) ∧ opens s' = opens s)
    ∧ (count (this s') = 0 →
         tasks s' !! t = Some (CatchAwaitOpen (openPromise (this s)) error)
         ∧ ∀ c, openController (this s) = Some c →
             ∃ op, opens s' !! c = Some op ∧ is_Some (open_signal op))
    ∧ (∀ s1 o' op cv hooks,
         tasks s1 !! t = Some (CatchAwaitOpen (Some o') error) →
         opens s1 !! o' = Some op → open_promise op = Fulfilled cv →
         ∃ s2 kop, step (Resume t hooks) s1 = Some s2
           ∧ tasks s2 !! t = Some (CatchAwaitClose (length (closes s1)) error)
           ∧ closes s2 = closes s1 ++ [kop]
           ∧ k_fn kop = close cv ∧ k_reason kop = error)
    ∧ (∀ s1 k hooks s2,
         tasks s1 !! t = Some (CatchAwaitClose k error) →
         step (Resume t hooks) s1 = Some s2 →
         tasks s2 !! t = Some (Done (Thrown error)) ∧ reported s2 = reported s1)
    ∧ (∀ es s1 r, run es s' = Some s1 → tasks s1 !! t = Some (Done r) →
         r = Thrown error)
    ∧ reported s' = reported s
    ∧ (∀ s1 o' hooks,
         tasks s1 !! t = Some (CatchAwaitOpen o' error) →
         step (CancelWait t) s1 = None
         ∧ (∀ s2, step (Resume t hooks) s1 = Some s2 → reported s2 = reported s1)
         ∧ (o' = None ∨ (∃ c op x, o' = Some c ∧ opens s1 !! c = Some op
                                   ∧ open_promise op = Rejected x) →
            step (Resume t hooks) s1 = Some (set_task t (Done (Thrown error)) s1))
         ∧ (∀ c op, o' = Some c → opens s1 !! c = Some op → open_promise op = Pending →
            step (Resume t hooks) s1 = None))
    ∧ (∀ s1 k op hooks,
         tasks s1 !! t = Some (CatchAwaitClose k error) → closes s1 !! k = Some op →
         step (CancelWait t) s1 = None
         ∧ (k_closePromise op = Pending → step (Resume t hooks) s1 = None)
         ∧ (k_closePromise op ≠ Pending →
            step (Resume t hooks) s1 = Some (set_task t (Done (Thrown error)) s1)))
    ∧ (∀ s1 k op s2, closes s1 !! k = Some op → k_hookPromise op = Some CatchOfClose →
         step (CatchReaction k) s1 = Some s2 → reported s2 = reported s1).
Proof.
  intros Hs Ht Hfail. apply reachable_wf in Hs.
  assert (∃ s', step e s = Some s'
            ∧ s' = (let '(tk, s1) := open_catch error s in set_task t tk s1))
    as (s' & Hstep & Hs').
  { destruct Hfail as [(hooks & -> & op & Ho & Hrej)|[-> Hsig]]; simpl.
    - unfold resume. rewrite Ht. simpl. rewrite Ho. simpl. rewrite Hrej.
      destruct (open_catch error s). eauto.
    - unfold cancel_wait. rewrite Ht. simpl. rewrite Hsig. simpl.
      destruct (open_catch error s). eauto. }
  destruct (open_catch error s) as [tk sc] eqn:Hcatch. subst s'.
  apply open_catch_fields in Hcatch
    as (Hthis & _ & _ & _ & Htasks & Hrep & _ & Hcase).
  exists (set_task t tk sc). split; [done|].
  assert (t < length (tasks s))%nat as Hlt by (by eapply lookup_lt_Some).
  assert (tasks (set_task t tk sc) !! t = Some tk) as Ht'.
  { simpl. rewrite Htasks. by apply list_lookup_insert_eq. }
  assert (failing error tk) as Hf'.
  { destruct Hcase as [(_ & -> & _)|(_ & -> & _)]; [by right; right|left; eauto]. }
  assert (count (this (set_task t tk sc)) = count (this s) - 1) as Hcount.
  { simpl. by rewrite Hthis. }
  assert (opens (set_task t tk sc) = opens sc) as Hopens1 by done.
  rewrite Hcount, Hopens1. split_and!.
  - done.
  - intros Hne. destruct Hcase as [(_ & -> & ?)|(? & _)]; done.
  - intros Hz. destruct Hcase as [(? & _)|(_ & -> & Hopens)]; [done|].
    split; [done|].
    intros c Hc. rewrite Hopens, Hc.
    destruct (wf_controller _ Hs _ Hc) as (op & Hop & _).
    exists (abort_open c error op). rewrite list_lookup_alter_eq, Hop.
    split; [done|]. simpl. unfold abort. destruct (open_signal op); eauto.
  - intros s1 o' op cv hooks Ht1 Ho1 Hful. simpl. unfold resume.
    rewrite Ht1. simpl. rewrite Ho1. simpl. rewrite Hful.
    destruct (close_ (close cv) error hooks s1) as [k s2] eqn:Hclose.
    apply close_fields in Hclose
      as (-> & _ & _ & _ & _ & Htk & _ & kop & Hcl & Hfn & Hreason & _).
    exists (set_task t (CatchAwaitClose (length (closes s1)) error) s2), kop.
    split; [done|]. simpl. rewrite Htk.
    split; [apply list_lookup_insert_eq; by eapply lookup_lt_Some|done].
  - intros s1 k hooks s2 Ht1 Hres. simpl in Hres. unfold resume in Hres.
    rewrite Ht1 in Hres. simpl in Hres.
    destruct (closes s1 !! k) as [op|]; simplify_eq/=.
    destruct (settled (k_closePromise op)); simplify_eq/=.
    split; [apply list_lookup_insert_eq; by eapply lookup_lt_Some|done].
  - intros es s1 r Hrun Hdone.
    destruct (run_failing _ _ _ _ _ _ Hrun Ht' Hf') as (tk1 & Ht1 & Hf1).
    rewrite Hdone in Ht1. simplify_eq. by apply failing_done.
  - done.
  - intros s1 o' hooks Ht1. split_and!.
    + simpl. unfold cancel_wait. by rewrite Ht1.
    + intros s2 Hres. simpl in Hres. unfold resume in Hres. rewrite Ht1 in Hres.
      simpl in Hres. destruct o' as [c|]; [|by simplify_eq].
      destruct (opens s1 !! c) as [op|]; simplify_eq/=.
      destruct (open_promise op); simplify_eq/=; [|done].
      destruct (close_ (close a) error hooks s1) as [k s3] eqn:Hclose.
      apply close_fields in Hclose as (_ & _ & _ & _ & _ & _ & Hrep3 & _).
      by simplify_eq/=.
    + intros [->|(c & op & x & -> & Hop & Hrej)]; simpl; unfold resume; rewrite Ht1;
        simpl; [done|]. rewrite Hop. simpl. by rewrite Hrej.
    + intros c op -> Hop Hpend. simpl. unfold resume. rewrite Ht1. simpl.
      rewrite Hop. simpl. by rewrite Hpend.
  - intros s1 k op hooks Ht1 Hop. split_and!.
    + simpl. unfold cancel_wait. by rewrite Ht1.
    + intros Hpend. simpl. unfold resume. rewrite Ht1. simpl. rewrite Hop. simpl.
      by rewrite Hpend.
    + intros Hset. simpl. unfold resume. rewrite Ht1. simpl. rewrite Hop. simpl.
      by destruct (k_closePromise op).
  - intros s1 k op s2 Hop Hmode Hcatch. simpl in Hcatch. unfold catch_reaction in Hcatch.
    rewrite Hop in Hcatch. simpl in Hcatch. rewrite Hmode in Hcatch.
    destruct (k_caught op); [done|]. destruct (settled (k_closePromise op)); by simplify_eq/=.
Qed.

Lemma failed_open_unwinds_witness :
  (∃ s', step (CancelWait 0) (state_after cancelled_last) = Some s'
         ∧ count (this s') = count (this (state_after cancelled_last)) - 1)
  ∧ step (Resume 0 0) (state_after (cancelled_last ++ [CancelWait 0])) = None
  ∧ (∃ s2 kop,
       step (Resume 0 0)
         (state_after (cancelled_last ++ [CancelWait 0; OpenerSettles 0 (inl conn)]))
       = Some s2
       ∧ k_fn kop = close conn ∧ k_reason kop = Data 9)
  ∧ step (Resume 0 0)
      (state_after (cancelled_last ++ [CancelWait 0; OpenerSettles 0 (inl conn);
                                       Resume 0 0; CloseSettles 0 (Some (Data 5))]))
    = Some (set_task 0 (Done (Thrown (Data 9)))
              (state_after (cancelled_last ++
                 [CancelWait 0; OpenerSettles 0 (inl conn); Resume 0 0;
                  CloseSettles 0 (Some (Data 5))]))).
Proof.
  destruct (failed_open_unwinds (state_after cancelled_last) (CancelWait 0)
              0%nat 0%nat (Some 0%nat) (Data 9))
    as (s' & Hstep & Hcount & _ & _ & Hclose & _ & _ & _ & Hopen & Hwait & _).
  - apply reachable_state_after. vm_compute. by eexists.
  - reflexivity.
  - right. split; reflexivity.
  - split; [exists s'; split; [exact Hstep|exact Hcount]|]. split; [|split].
    + destruct (Hopen (state_after (cancelled_last ++ [CancelWait 0])) (Some 0%nat) 0%nat)
        as (_ & _ & _ & Hpending); [reflexivity|].
      apply (Hpending 0%nat {| open_signal := Some (Data 9); open_promise := Pending |});
        reflexivity.
    + destruct (Hclose
                  (state_after (cancelled_last ++ [CancelWait 0; OpenerSettles 0 (inl conn)]))
                  0%nat {| open_signal := Some (Data 9); open_promise := Fulfilled conn |}
                  conn 0%nat)
        as (s2 & kop & Hres & _ & _ & Hfn & Hreason); [reflexivity|reflexivity|reflexivity|].
      exists s2, kop. split; [exact Hres|]. split; [exact Hfn|exact Hreason].
    + destruct (Hwait
                  (state_after (cancelled_last ++
                     [CancelWait 0; OpenerSettles 0 (inl conn); Resume 0 0;
                      CloseSettles 0 (Some (Data 5))]))
                  0%nat
                  {| k_fn := 0; k_reason := Data 9; k_signal := None;
                     k_hookPromise := Some CatchOfClose;
                     k_closePromise := Rejected (Data 5);
                     k_hook := Pending; k_caught := false; k_finally := false |}
                  0%nat)
        as (_ & _ & Hgo); [reflexivity|reflexivity|].
      apply Hgo. discriminate.
Defined.

(** ** C7: a failed open is not cached *)

(** C7 (counterexample): in the state [two_pending_opens] ends in, the
    opener call 1 rejects while the open slot holds call 2; by the guard of
    line 159 the slot and [#openController] keep call 2, and the next
    [open()] joins it without calling the opener. *)
Lemma stale_rejection_keeps_slot :
  ∃ s s' s2,
    run two_pending_opens init = Some s
    ∧ open_promise <$> opens s = [Fulfilled conn; Pending; Pending]
    ∧ openPromise (this s) = Some 2%nat
    ∧ step (OpenerSettles 1 (inr boom)) s = Some s'
    ∧ openPromise (this s') = Some 2%nat
    ∧ openController (this s') = Some 2%nat
    ∧ step (CallOpen None) s' = Some s2
    ∧ length (opens s2) = length (opens s').
Proof.
  do 3 eexists. split; [vm_compute; reflexivity|]. do 2 (split; [reflexivity|]).
  split; [vm_compute; reflexivity|]. do 2 (split; [reflexivity|]).
  split; [vm_compute; reflexivity|]. done.
Qed.

(** C7 (amended): when an opener call rejects with [error], that open is
    rejected with [error].  If it is the open the slot holds, the slot and
    [#openController] are cleared, so that the next [open()] that enters (no
    close in the slot, its signal not aborted) calls the opener again, and
    every call awaiting that open can resume at once and rejects with
    [error] in one or two resumptions.  If the slot does not hold it, the
    slot is left as it is.  Along any run, a call awaiting that open can only
    end by rejecting, with [error] or, when its own signal is aborted, with
    that signal's reason. *)
Theorem open_failure_clears_slot s o error s' :
  reachable s →
  step (OpenerSettles o (inr error)) s = Some s' →
  rejected_open s' o error
  ∧ (openPromise (this s) = Some o →
       openPromise (this s') = None ∧ openController (this s') = None
       ∧ (∀ signal s2, signal_reason signal s' = None → closePromise (this s') = None →
            step (CallOpen signal) s' = Some s2 →
            opens s2 = opens s' ++ [{| open_signal := None; open_promise := Pending |}]
            ∧ tasks s2 = tasks s' ++ [OpenAwaitOpen (length (opens s')) signal])
       ∧ (∀ t signal, tasks s' !! t = Some (OpenAwaitOpen o signal) →
            ∃ s1, step (Resume t 0) s' = Some s1
                  ∧ (tasks s1 !! t = Some (Done (Thrown error))
                     ∨ ∃ s2, step (Resume t 0) s1 = Some s2
                             ∧ tasks s2 !! t = Some (Done (Thrown error)))))
  ∧ (openPromise (this s) ≠ Some o → openPromise (this s') = openPromise (this s))
  ∧ (∀ t signal es s1 r, tasks s' !! t = Some (OpenAwaitOpen o signal) →
       run es s' = Some s1 → tasks s1 !! t = Some (Done r) →
       r = Thrown error
       ∨ ∃ reason, signal_reason signal s1 = Some reason ∧ r = Thrown reason).
Proof.
  intros Hs Hstep.
  pose proof (reachable_slot_controller _ Hs) as Hsc.
  apply reachable_wf in Hs.
  assert (rejected_open s' o error) as Hrej.
  { clear Hsc. step_inv Hstep.
    all: eexists; (split; [apply list_lookup_insert_eq; by eapply lookup_lt_Some|done]). }
  split; [done|]. split_and!.
  - intros Hslot. destruct (wf_open _ Hs _ Hslot) as (op & Hop & Hctl).
    assert (openPromise (this s') = None ∧ openController (this s') = None)
      as (Hslot' & Hctl').
    { simpl in Hstep. unfold opener_settles in Hstep. rewrite Hop in Hstep.
      simpl in Hstep. destruct (open_promise op) eqn:Hpend; simplify_eq/=.
      rewrite (Hctl eq_refl). by rewrite decide_True by done. }
    clear Hstep. split; [done|]. split; [done|]. split.
    + intros signal s2 Hsig Hk Hcall. simpl in Hcall. unfold open in Hcall.
      rewrite Hsig, Hk in Hcall. unfold open_enter in Hcall. simpl in Hcall.
      rewrite Hslot' in Hcall. by simplify_eq/=.
    + intros t signal Ht. by apply (resume_rejected_wait _ _ _ _ _ Ht Hrej).
  - intros Hslot. step_inv Hstep; [|done].
    destruct (openPromise (this s)) as [o'|] eqn:Ho'; [|done].
    destruct Hslot. f_equal. symmetry. by eapply (Hsc o' o).
  - intros t signal es s1 r Ht Hrun Hdone.
    destruct (run_awaits_rejected _ _ _ _ _ _ _ Hrun Hrej Ht)
      as (tk & Ht1 & [->|[Hf|(reason & Hsig & Hf)]]).
    + congruence.
    + left. rewrite Hdone in Ht1. simplify_eq. by apply failing_done.
    + right. rewrite Hdone in Ht1. simplify_eq. exists reason.
      split; [done|]. by apply failing_done.
Qed.

Lemma open_failure_clears_slot_witness :
  rejected_open (state_after [CallOpen None; CallOpen None; OpenerSettles 0 (inr boom)])
    0 boom
  ∧ openPromise (this (state_after [CallOpen None; CallOpen None;
                                    OpenerSettles 0 (inr boom)])) = None
  ∧ ∃ s1, step (Resume 1 0)
            (state_after [CallOpen None; CallOpen None; OpenerSettles 0 (inr boom)])
          = Some s1
          ∧ (tasks s1 !! 1%nat = Some (Done (Thrown boom))
             ∨ ∃ s2, step (Resume 1 0) s1 = Some s2
                     ∧ tasks s2 !! 1%nat = Some (Done (Thrown boom))).
Proof.
  destruct (open_failure_clears_slot (state_after [CallOpen None; CallOpen None])
              0%nat boom
              (state_after [CallOpen None; CallOpen None; OpenerSettles 0 (inr boom)]))
    as (Hrej & Hheld & _).
  - apply reachable_state_after. vm_compute. by eexists.
  - vm_compute. reflexivity.
  - destruct Hheld as (Hslot & _ & _ & Hwaiters); [reflexivity|].
    split; [exact Hrej|]. split; [exact Hslot|].
    apply (Hwaiters 1%nat None). reflexivity.
Defined.

(** ** C8: acquiring the hook *)

(** C8 (counterexample): the close function returns without acquiring the
    hook and calls [acquireHook] later; this first call of the invocation
    throws. *)
Lemma first_acquire_after_return_throws :
  ∃ s, run (closing ++ [AcquireLate 0]) init = Some s
       ∧ length (closes s) = 1%nat
       ∧ acquired s = [(0%nat, false)].
Proof. eexists. split; [vm_compute; reflexivity|]. done. Qed.

(** C8 (amended): among the calls of [acquireHook] that the close function
    makes before it returns, the first returns a hook and every later one
    throws; every call made after the close function has returned throws,
    whether or not a hook was acquired before. *)
Theorem acquire_hook_once :
  (∀ cl reason hooks s,
      acquired (close_ cl reason hooks s).2 =
        acquired s ++
          match hooks with
          | O => []
          | S n => (length (closes s), true) :: replicate n (length (closes s), false)
          end)
  ∧ (∀ s k, reachable s → (k < length (closes s))%nat →
      ∃ s', step (AcquireLate k) s = Some s'
            ∧ acquired s' = acquired s ++ [(k, false)]).
Proof.
  split.
  - intros cl reason hooks s. unfold close_. rewrite call_hooks_log.
    destruct hooks; simpl; [by rewrite app_nil_r|done].
  - intros s k Hs Hk. apply reachable_wf in Hs.
    destruct (lookup_lt_is_Some_2 _ _ Hk) as [op Hop].
    simpl. unfold acquire_late. rewrite Hop. simpl.
    destruct (wf_hook _ Hs _ _ Hop) as [Hx|Hx]; rewrite Hx; simpl; eauto.
Qed.

Lemma acquire_hook_once_witness :
  ∃ s', step (AcquireLate 0) (state_after (one_handle ++ [CallClose 0 Undefined 2]))
          = Some s'
        ∧ acquired s' = [(0%nat, true); (0%nat, false); (0%nat, false)].
Proof.
  destruct (proj2 acquire_hook_once
              (state_after (one_handle ++ [CallClose 0 Undefined 2])) 0%nat)
    as (s' & Hstep & Hacq).
  - apply reachable_state_after. vm_compute. by eexists.
  - vm_compute. lia.
  - exists s'. split; [exact Hstep|exact Hacq].
Defined.

(** ** C9: a rejection of the hook *)

(** C9: when the close function has taken the hook and the hook is rejected
    with [error], the [.catch] reaction runs; it passes [error] to
    [reportError] unless the close's token is aborted with [error] as its
    reason, in which case [error] is absorbed; either way the chained promise
    is fulfilled and no call, handle, slot or counter is touched, neither by
    the reaction nor by the rejection of the hook itself.  No call ever
    throws what a hook was rejected with: in every reachable state the error
    of a rejected call is one of the two errors the class creates, the reason
    of a caller's signal, the rejection of an open or the rejection of the
    promise a close function returned. *)
Theorem hook_rejection_reported s k op error :
  closes s !! k = Some op →
  k_hookPromise op = Some CatchOfHook →
  k_hook op = Rejected error →
  k_caught op = false →
  ∃ s', step (CatchReaction k) s = Some s'
        ∧ (k_signal op = Some error → reported s' = reported s)
        ∧ (k_signal op ≠ Some error → reported s' = reported s ++ [error])
        ∧ closes s' = <[k := set_k_caught true op]> (closes s)
        ∧ tasks s' = tasks s ∧ handles s' = handles s ∧ this s' = this s
        ∧ opens s' = opens s
        ∧ (∀ s0 s1 r, step (HookSettles k r) s0 = Some s1 →
             tasks s1 = tasks s0 ∧ reported s1 = reported s0 ∧ this s1 = this s0)
        ∧ (∀ s1 t x, reachable s1 → tasks s1 !! t = Some (Done (Thrown x)) →
             thrown_source s1 x).
Proof.
  intros Hk Hhp Hhook Hcaught.
  assert (∀ s0 s1 r, step (HookSettles k r) s0 = Some s1 →
            tasks s1 = tasks s0 ∧ reported s1 = reported s0 ∧ this s1 = this s0)
    as Hsettle.
  { intros s0 s1 r H. by step_inv H. }
  assert (∀ s1 t x, reachable s1 → tasks s1 !! t = Some (Done (Thrown x)) →
            thrown_source s1 x) as Hsource.
  { intros s1 t x Hs1 Ht. by eapply (reachable_errors_sourced _ Hs1 t). }
  unfold step, catch_reaction.
  rewrite Hk. simpl. rewrite Hcaught, Hhp, Hhook.
  eexists. split; [done|].
  unfold unexpected. destruct (k_signal op) as [reason|] eqn:Hsig; simpl.
  - case_bool_decide as Hne; simpl.
    + split_and!; try done. intros [= ->]. done.
    + subst. split_and!; try done.
  - split_and!; try done.
Qed.

Lemma hook_rejection_reported_witness :
  ∃ s', step (CatchReaction 0)
          (state_after (one_handle ++ [CallClose 0 Undefined 1;
                                       HookSettles 0 (Some (Data 5))])) = Some s'
        ∧ reported s' = [Data 5].
Proof.
  destruct (hook_rejection_reported
    (state_after (one_handle ++ [CallClose 0 Undefined 1; HookSettles 0 (Some (Data 5))]))
    0%nat
    {| k_fn := 0; k_reason := Undefined; k_signal := None;
       k_hookPromise := Some CatchOfHook; k_closePromise := Pending;
       k_hook := Rejected (Data 5); k_caught := false; k_finally := false |}
    (Data 5) eq_refl eq_refl eq_refl eq_refl)
    as (s' & Hstep & _ & Hrep & _).
  exists s'. split; [exact Hstep|]. by apply Hrep.
Defined.

(** ** C10: an [open()] that rejects before the increment *)




(** * Further properties of the code *)

(** ** The slots of the close *)

Lemma step_close_slots_paired e s s' :
  close_slots_paired s → step e s = Some s' → close_slots_paired s'.
Proof.
  unfold close_slots_paired. intros Hp Hstep.
  destruct e; step_inv Hstep; simplify_eq/=; try done; congruence.
Qed.

(** X1: in every reachable state [#closeController] and [#closePromise]
    are both empty or belong to the same close (so the non-null assertion of
    line 139 cannot fail), and the close they hold has been started and its
    [.finally] reaction has not run. *)
Theorem close_slots_agree s :
  reachable s →
  closeController (this s) = closePromise (this s)
  ∧ ∀ k, closePromise (this s) = Some k →
      ∃ op, closes s !! k = Some op ∧ k_finally op = false.
Proof.
  intros Hs. split.
  - revert s Hs. apply (reachable_invariant close_slots_paired); [done|].
    intros e s s'. apply step_close_slots_paired.
  - intros k Hk. apply reachable_wf in Hs. by destruct (wf_close _ Hs _ Hk).
Qed.

Lemma close_slots_agree_witness :
  closeController (this (state_after closing)) = closePromise (this (state_after closing))
  ∧ ∃ op, closes (state_after closing) !! 0%nat = Some op ∧ k_finally op = false.
Proof.
  destruct (close_slots_agree (state_after closing)) as [Heq Hop].
  - apply reachable_state_after. vm_compute. by eexists.
  - split; [exact Heq|]. apply Hop. reflexivity.
Defined.

(** X2: a call of [open()] that ends before its first [await] has thrown
    the reason of its own signal, which was aborted at entry (line 136), and
    has changed nothing; nothing else in the synchronous part of [open()]
    throws. *)
Theorem open_throws_only_own_reason s signal r s' :
  reachable s → open signal s = (Done r, s') →
  ∃ reason, signal_reason signal s = Some reason ∧ r = Thrown reason ∧ s' = s.
Proof.
  intros Hs Hopen. apply reachable_wf in Hs. unfold open in Hopen.
  destruct (signal_reason signal s) as [reason|]; [simplify_eq; by eexists|].
  destruct (closePromise (this s)) as [p|] eqn:Hp.
  - destruct (wf_close _ Hs _ Hp) as [Hc _]. rewrite Hc in Hopen. simplify_eq.
  - unfold open_enter in Hopen. simpl in Hopen.
    destruct (openPromise (this s)); simplify_eq.
Qed.

Lemma open_throws_only_own_reason_witness :
  ∃ reason, signal_reason (Some 0%nat) (state_after [AbortSignalOf 0 (Data 9)]) = Some reason
            ∧ Thrown (Data 9) = Thrown reason
            ∧ state_after [AbortSignalOf 0 (Data 9)] = state_after [AbortSignalOf 0 (Data 9)].
Proof.
  apply (open_throws_only_own_reason (state_after [AbortSignalOf 0 (Data 9)]) (Some 0%nat)).
  - apply reachable_state_after. vm_compute. by eexists.
  - vm_compute. reflexivity.
Defined.

(** ** The controller of an open *)

Lemma abort_is_Some c reason signal : is_Some (abort c reason signal).
Proof. unfold abort. destruct signal; eauto. Qed.

Lemma step_settled_opens_aborted e s s' :
  settled_opens_aborted s → step e s = Some s' → settled_opens_aborted s'.
Proof.
  intros Hinv Hstep o op Ho Hset.
  destruct e; step_inv Hstep; try (by eapply Hinv).
  all: lookup_inv Ho; simplify_eq/=; try done; try (by eapply Hinv).
  all: try apply abort_is_Some.
Qed.

(** X3: once the promise of the opener has settled, the signal that was
    handed to the opener is aborted (lines 151 and 158), and
    [#openController] no longer holds the controller of that open: the slot
    only ever holds the controller of a pending open. *)
Theorem settled_open_is_aborted s o op :
  reachable s → opens s !! o = Some op → open_promise op ≠ Pending →
  is_Some (open_signal op) ∧ openController (this s) ≠ Some o.
Proof.
  intros Hs Ho Hset. split.
  - assert (settled_opens_aborted s) as Hinv; [|by eapply Hinv].
    clear Ho. revert s Hs. apply reachable_invariant.
    + by intros o' op' Ho'.
    + intros e s s'. apply step_settled_opens_aborted.
  - intros Hc. apply reachable_wf in Hs.
    destruct (wf_controller _ Hs _ Hc) as (op' & Ho' & Hp). congruence.
Qed.

Lemma settled_open_is_aborted_witness :
  is_Some (Some (AbortError (OpenController 0)))
  ∧ openController (this (state_after one_handle)) ≠ Some 0%nat.
Proof.
  apply (settled_open_is_aborted (state_after one_handle) 0%nat
           {| open_signal := Some (AbortError (OpenController 0));
              open_promise := Fulfilled conn |}).
  - apply reachable_state_after. vm_compute. by eexists.
  - reflexivity.
  - simpl. discriminate.
Defined.

(** ** Where handles and close functions come from *)

Lemma step_produced e s s' v cl :
  step e s = Some s' → produced s v cl → produced s' v cl.
Proof.
  intros He (o & op & Ho & Hful).
  destruct (step_opens _ _ _ _ _ He Ho) as (op' & Ho' & Hp & _).
  exists o, op'. split; [done|]. rewrite Hp; [done|]. by rewrite Hful.
Qed.

Lemma produced_intro s o op cv :
  opens s !! o = Some op → open_promise op = Fulfilled cv →
  produced s (value cv) (close cv).
Proof. intros Ho Hful. exists o, op. split; [done|]. by destruct cv. Qed.

Lemma step_provenance e s s' :
  provenance s → step e s = Some s' → provenance s'.
Proof.
  intros [Hh Hk] Hstep.
  assert (∀ v cl, produced s v cl → produced s' v cl) as Hmono.
  { intros v cl. by apply step_produced with e. }
  assert (∀ o op cv, opens s !! o = Some op → open_promise op = Fulfilled cv →
            produced s' (value cv) (close cv)) as Hnew.
  { intros o op cv Ho Hful. apply Hmono. by eapply produced_intro. }
  split.
  - intros h hd Hhd. destruct e; step_inv Hstep; try (by apply Hmono, Hh).
    all: lookup_inv Hhd; simplify_eq/=; try (by apply Hmono, Hh).
    all: try (by eapply Hnew).
    all: try match goal with
         | H : handles _ !! _ = Some ?h0 |- produced _ (h_value ?h0) _ =>
             by apply Hmono, (Hh _ _ H)
         end.
  - intros k op Hop. destruct e; step_inv Hstep;
      try (destruct (Hk _ _ Hop) as [pv Hpv]; exists pv; by apply Hmono).
    all: lookup_inv Hop; simplify_eq/=;
      try (destruct (Hk _ _ Hop) as [pv Hpv]; exists pv; by apply Hmono).
    all: try match goal with
         | H : closes _ !! _ = Some ?c |- ∃ v, produced _ v (k_fn ?c) =>
             destruct (Hk _ _ H) as [pv Hpv]; exists pv; by apply Hmono
         | H : handles _ !! _ = Some ?h0 |- ∃ v, produced _ v (h_close ?h0) =>
             eexists; by apply Hmono, (Hh _ _ H)
         | |- ∃ v, produced _ v (close ?cv) => eexists; by eapply Hnew
         end.
Qed.

(** X4: in every reachable state, the value and the close function of
    every handle are those of one value the opener produced, and every
    call of [#close], from a handle (line 186) or from the safeguard
    (line 198), was given the close function of a value the opener
    produced. *)
Theorem handles_and_closes_from_opener s :
  reachable s →
  (∀ h hd, handles s !! h = Some hd → produced s (h_value hd) (h_close hd))
  ∧ (∀ k op, closes s !! k = Some op → ∃ v, produced s v (k_fn op)).
Proof.
  revert s. apply (reachable_invariant provenance).
  - by split; intros i x Hx.
  - intros e s s'. apply step_provenance.
Qed.

Lemma handles_and_closes_from_opener_witness :
  produced (state_after closing) (Data 7) 0 ∧ ∃ v, produced (state_after closing) v 0.
Proof.
  destruct (handles_and_closes_from_opener (state_after closing)) as [Hh Hk].
  - apply reachable_state_after. vm_compute. by eexists.
  - split.
    + apply (Hh 0%nat {| h_value := Data 7; h_close := 0; closed := true |}). reflexivity.
    + apply (Hk 0%nat {| k_fn := 0; k_reason := Undefined; k_signal := None;
                         k_hookPromise := Some CatchOfClose; k_closePromise := Pending;
                         k_hook := Pending; k_caught := false; k_finally := false |}).
      reflexivity.
Defined.

(** ** The reactions of a close *)

Lemma step_close_ordered e s s' :
  wf s → close_ordered s → step e s = Some s' → close_ordered s'.
Proof.
  intros Hwf Hinv Hstep k op Hk. unfold completion_settled.
  destruct e; step_inv Hstep; try (by eapply Hinv).
  all: lookup_inv Hk; simplify_eq/=; try (by eapply Hinv).
  all: try match goal with
       | H : closes _ !! _ = Some _ |- _ =>
           pose proof (Hinv _ _ H) as (Hfc & Hcs & Hhm);
           pose proof (wf_hook _ Hwf _ _ H) as Hmode
       end.
  all: unfold completion_settled in *; simpl in *.
  all: try (destruct Hmode as [Hmode|Hmode]; rewrite Hmode in *; simpl in * ).
  all: try match goal with r : option val |- _ => destruct r end; simpl.
  all: try (clear Hinv Hwf; intuition congruence).
  all: match goal with
       | H : closes _ !! _ = Some ?c |- _ =>
           destruct (k_hook c) eqn:?; destruct (k_caught c) eqn:?;
           destruct (k_closePromise c) eqn:?; destruct (k_finally c) eqn:?
       end; simplify_eq/=; intuition congruence.
Qed.

(** X5: the reactions of a close run in order.  In every reachable state,
    if the [.finally] reaction of a close has run (the slots are released)
    then its [.catch] reaction has run, and if the [.catch] reaction has run
    then the promise it is chained on has settled: the promise of the hook
    when the close function took the hook, whatever the promise the close
    function returned has done, and the promise the close function returned
    otherwise.  A hook that was not taken is never settled. *)
Theorem close_reactions_in_order s k op :
  reachable s → closes s !! k = Some op →
  (k_finally op = true → k_caught op = true)
  ∧ (k_caught op = true → completion_settled op = true)
  ∧ (k_hook op ≠ Pending → k_hookPromise op = Some CatchOfHook).
Proof.
  intros Hs. revert k op.
  change (close_ordered s).
  assert (wf s ∧ close_ordered s) as [_ Hinv]; [|done].
  revert s Hs. apply reachable_invariant.
  - split; [apply wf_init|]. by intros k op Hk.
  - intros e s s' [Hwf Hinv] Hstep. split; [by eapply step_wf|by eapply step_close_ordered].
Qed.

Lemma close_reactions_in_order_witness :
  (true = true → true = true)
  ∧ (true = true →
     completion_settled
       {| k_fn := 0; k_reason := Undefined; k_signal := None;
          k_hookPromise := Some CatchOfClose; k_closePromise := Fulfilled ();
          k_hook := Pending; k_caught := true; k_finally := true |} = true)
  ∧ (@Pending unit ≠ Pending → Some CatchOfClose = Some CatchOfHook).
Proof.
  apply (close_reactions_in_order (state_after closed_again) 0%nat
           {| k_fn := 0; k_reason := Undefined; k_signal := None;
              k_hookPromise := Some CatchOfClose; k_closePromise := Fulfilled ();
              k_hook := Pending; k_caught := true; k_finally := true |}).
  - apply reachable_state_after. vm_compute. by eexists.
  - reflexivity.
Defined.

(** ** What is reported *)

(** What a close keeps once set: the way it completes, a settled hook, its
    [.catch] reaction. *)
Lemma step_close_hook e s s' k op :
  wf s → step e s = Some s' → closes s !! k = Some op →
  ∃ op', closes s' !! k = Some op'
         ∧ k_hookPromise op' = k_hookPromise op
         ∧ (k_hook op ≠ Pending → k_hook op' = k_hook op)
         ∧ (k_caught op = true → k_caught op' = true).
Proof.
  intros Hwf Hstep Hk. pose proof (wf_hook _ Hwf _ _ Hk) as Hmode.
  destruct e; step_inv Hstep; lookup_cases; simplify_eq/=;
    try rewrite Hk; simpl; try (eexists; split_and!; by eauto).
  all: try (eexists; split_and!; [done|..]; simpl; try done; congruence).
  unfold acquireHook in *. destruct Hmode as [Hm|Hm]; rewrite Hm in *; simplify_eq/=;
    eexists; split_and!; eauto.
Qed.

Lemma step_reported_hook e s s' error :
  wf s → step e s = Some s' → reported_hook s error → reported_hook s' error.
Proof.
  intros Hwf He (k & op & Hk & Hm & Hrej & Hc).
  destruct (step_close_hook _ _ _ _ _ Hwf He Hk) as (op' & Hk' & Hm' & Hh' & Hc').
  exists k, op'. split_and!; [done|congruence| |auto].
  rewrite Hh'; [done|]. by rewrite Hrej.
Qed.

Lemma step_reports_from_hooks e s s' :
  wf s → reports_from_hooks s → step e s = Some s' → reports_from_hooks s'.
Proof.
  intros Hwf Hinv Hstep error Hin.
  destruct (decide (error ∈ reported s)) as [Hold|Hnew].
  { eapply step_reported_hook; eauto. }
  destruct e; step_inv Hstep; try done.
  apply elem_of_app in Hin as [?|Hin]; [done|].
  apply list_elem_of_singleton in Hin as ->.
  eexists _, _. split_and!; [apply list_lookup_insert_eq; by eapply lookup_lt_Some|..];
    simpl; done.
Qed.

(** X6: whatever was passed to [reportError] is the rejection of a hook
    that a close function had acquired, reported by the [.catch] reaction of
    that close: the rejection of an open, of the promise a close function
    returned, or the abort of a caller is never reported. *)
Theorem only_hook_rejections_reported s error :
  reachable s → error ∈ reported s → reported_hook s error.
Proof.
  intros Hs. revert error. change (reports_from_hooks s).
  assert (wf s ∧ reports_from_hooks s) as [_ Hinv]; [|done].
  revert s Hs. apply reachable_invariant.
  - split; [apply wf_init|]. intros ? Hx. by apply elem_of_nil in Hx.
  - intros e s s' [Hwf Hinv] Hstep.
    split; [by eapply step_wf|by eapply step_reports_from_hooks].
Qed.

Lemma only_hook_rejections_reported_witness :
  reported_hook (state_after hook_rejected) (Data 5).
Proof.
  apply only_hook_rejections_reported.
  - apply reachable_state_after. vm_compute. by eexists.
  - vm_compute. constructor.
Defined.

Lemma step_close_abort_reason e s s' :
  close_abort_reason s → step e s = Some s' → close_abort_reason s'.
Proof.
  intros Hinv Hstep k op r Hk Hr.
  destruct e; step_inv Hstep; try (by eapply Hinv).
  all: lookup_inv Hk; simplify_eq/=; try (by eapply Hinv).
  all: try (unfold abort in Hr; destruct (k_signal _) eqn:Hs; simplify_eq/=;
            by eauto).
Qed.

(** X7: the token of a close, which the hook exposes as [signal], is
    aborted by nothing but the [open()] that supersedes the close (line 139),
    which passes no reason: in every reachable state its reason, if any, is
    the [AbortError] of the controller of that close.  So the test of line
    118 lets every rejection of the hook through to [reportError] except a
    rejection with that very [AbortError]. *)
Theorem close_token_reason s k op :
  reachable s → closes s !! k = Some op →
  (∀ r, k_signal op = Some r → r = AbortError (CloseController k))
  ∧ (∀ error, error ≠ AbortError (CloseController k) →
       unexpected (k_signal op) error = true).
Proof.
  intros Hs Hk.
  assert (∀ r, k_signal op = Some r → r = AbortError (CloseController k)) as Hr.
  { intros r. revert k op r Hk. change (close_abort_reason s).
    revert s Hs. apply reachable_invariant.
    - by intros k op r Hk.
    - intros e s s'. apply step_close_abort_reason. }
  split; [done|]. intros error Hne. unfold unexpected.
  destruct (k_signal op) as [r|]; [|done].
  apply bool_decide_eq_true. by rewrite (Hr r).
Qed.

Lemma close_token_reason_witness :
  AbortError (CloseController 0) = AbortError (CloseController 0)
  ∧ unexpected (Some (AbortError (CloseController 0))) (Data 5) = true.
Proof.
  destruct (close_token_reason (state_after (closing ++ [CallOpen None])) 0%nat
              {| k_fn := 0; k_reason := Undefined;
                 k_signal := Some (AbortError (CloseController 0));
                 k_hookPromise := Some CatchOfClose; k_closePromise := Pending;
                 k_hook := Pending; k_caught := false; k_finally := false |})
    as [Hr Hu].
  - apply reachable_state_after. vm_compute. by eexists.
  - reflexivity.
  - split; [apply Hr; reflexivity|apply Hu; discriminate].
Defined.

(** ** The hooks handed out *)

Lemma grants_app k l1 l2 : grants k (l1 ++ l2) = (grants k l1 + grants k l2)%nat.
Proof. apply count_where_app. Qed.

Lemma grants_replicate_false k k' n : grants k (replicate n (k', false)) = 0%nat.
Proof.
  induction n as [|n IH]; simpl; [done|]. unfold grants in *. simpl. rewrite IH.
  by rewrite bool_decide_false by congruence.
Qed.

Lemma grants_none k log :
  (∀ ok, (k, ok) ∉ log) → grants k log = 0%nat.
Proof.
  induction log as [|p log IH]; intros Hk; [done|]. unfold grants in *. simpl.
  rewrite IH; [|intros ok Hin; apply (Hk ok); by right].
  rewrite bool_decide_false; [done|]. intros ->. apply (Hk true). by left.
Qed.

Lemma elem_of_replicate_inv {A} (x y : A) n : x ∈ replicate n y → x = y.
Proof. induction n; simpl; [by intros ?%elem_of_nil|]. intros [->|?]%elem_of_cons; auto. Qed.

Lemma grants_calls k k' hooks :
  grants k (sync_calls k' hooks)
  = if bool_decide (k = k') then (if hooks is O then 0 else 1)%nat else 0%nat.
Proof.
  destruct hooks as [|n]; simpl; [by case_bool_decide|].
  unfold grants. simpl. fold (grants k (replicate n (k', false))).
  rewrite grants_replicate_false.
  case_bool_decide as Hk; simplify_eq.
  - by rewrite bool_decide_true.
  - rewrite bool_decide_false; [done|]. congruence.
Qed.

Lemma modes_insert s k op op' :
  closes s !! k = Some op → k_hookPromise op' = k_hookPromise op →
  k_hookPromise <$> <[k := op']> (closes s) = modes s.
Proof.
  intros Hk Hm. unfold modes. rewrite list_fmap_insert, Hm.
  apply list_insert_id. by rewrite list_lookup_fmap, Hk.
Qed.

Lemma modes_alter s k f :
  (∀ op, k_hookPromise (f op) = k_hookPromise op) →
  k_hookPromise <$> alter f k (closes s) = modes s.
Proof.
  intros Hf. unfold modes. rewrite (list_fmap_alter _ f id).
  - by apply list_alter_id.
  - apply Forall_forall. intros op _. apply Hf.
Qed.

(** What one event does to the log of [acquireHook] and to the way the
    closes complete: nothing, a refused late call, or a new close with the
    calls its close function makes before it returns. *)
Lemma step_modes e s s' :
  wf s → step e s = Some s' →
  (modes s' = modes s ∧ acquired s' = acquired s)
  ∨ (∃ k, (k < length (modes s))%nat ∧ modes s' = modes s
          ∧ acquired s' = acquired s ++ [(k, false)])
  ∨ (∃ hooks, acquired s' = acquired s ++ sync_calls (length (modes s)) hooks
              ∧ modes s' = modes s ++ [Some (if hooks is O then CatchOfClose
                                             else CatchOfHook)]).
Proof.
  intros Hwf Hstep.
  destruct e; step_inv Hstep; unfold modes at 1; simpl;
    try (left; split; [|done]; first [done | by eapply modes_insert
                                      | by apply modes_alter]).
  all: try match goal with
       | H : call_hooks _ ?hooks None _ = _ |- _ =>
           right; right; exists hooks; rewrite call_hooks_log in H; unfold modes;
           simpl; rewrite fmap_app, length_fmap; simpl;
           destruct hooks; simplify_eq/=; rewrite ?app_nil_r; by split
       end.
  right; left. unfold acquireHook in *.
  match goal with
  | H : closes _ !! ?k = Some ?c |- _ =>
      exists k; unfold modes at 1; rewrite length_fmap;
      split; [by eapply lookup_lt_Some|];
      destruct (wf_hook _ Hwf _ _ H) as [Hm|Hm]; rewrite Hm in *; simplify_eq/=;
      (split; [by eapply modes_insert|done])
  end.
Qed.

Lemma step_hooks_granted e s s' :
  wf s → hooks_granted s → step e s = Some s' → hooks_granted s'.
Proof.
  intros Hwf [Hidx Hgr] Hstep.
  destruct (step_modes _ _ _ Hwf Hstep)
    as [[Hm Ha]|[(k0 & Hk0 & Hm & Ha)|(hooks & Ha & Hm)]]; unfold hooks_granted;
    rewrite Hm, Ha.
  - by split.
  - split.
    + intros k ok [Hin|Hin]%elem_of_app; [by eapply Hidx|].
      apply list_elem_of_singleton in Hin. by simplify_eq.
    + intros k m Hk. rewrite grants_app, (Hgr _ _ Hk).
      replace (grants k [(k0, false)]) with 0%nat; [lia|].
      unfold grants. simpl. by rewrite bool_decide_false by congruence.
  - split.
    + intros k ok. rewrite length_app. simpl.
      intros [Hin|Hin]%elem_of_app; [specialize (Hidx _ _ Hin); lia|].
      destruct hooks; [by apply elem_of_nil in Hin|]. simpl in Hin.
      apply elem_of_cons in Hin as [Heq|Hin]; [simplify_eq; lia|].
      apply elem_of_replicate_inv in Hin. simplify_eq. lia.
    + intros k m. rewrite grants_app, grants_calls.
      intros [[Hlt Hk]|[-> <-]]%lookup_snoc_Some.
      * rewrite (Hgr _ _ Hk). rewrite bool_decide_false by lia. lia.
      * rewrite grants_none; [|intros ok Hin; specialize (Hidx _ _ Hin); lia].
        rewrite bool_decide_true by done. by destruct hooks.
Qed.

(** X8: over a whole run, counting the calls of [acquireHook] made before
    and after the close function returned, a call of [#close] hands out
    exactly one hook when it completes through the hook (the branch of line
    117) and none when it completes through the promise of the close
    function (line 115); it never hands out two. *)
Theorem one_hook_per_close s k op :
  reachable s → closes s !! k = Some op →
  grants k (acquired s) = (if k_hookPromise op is Some CatchOfHook then 1 else 0)%nat
  ∧ (grants k (acquired s) ≤ 1)%nat.
Proof.
  intros Hs Hk.
  assert (wf s ∧ hooks_granted s) as [_ [_ Hgr]].
  { clear Hk. revert s Hs. apply reachable_invariant.
    - split; [apply wf_init|]. split.
      + intros i ok Hx. by apply elem_of_nil in Hx.
      + by intros i m Hx.
    - intros e s s' [Hwf Hinv] Hstep.
      split; [by eapply step_wf|by eapply step_hooks_granted]. }
  assert (modes s !! k = Some (k_hookPromise op)) as Hm.
  { unfold modes. by rewrite list_lookup_fmap, Hk. }
  rewrite (Hgr _ _ Hm). split; [done|]. by repeat case_match; lia.
Qed.

Lemma one_hook_per_close_witness :
  grants 0 (acquired (state_after (one_handle ++ [CallClose 0 Undefined 2; AcquireLate 0])))
  = 1%nat
  ∧ (grants 0 (acquired (state_after (one_handle ++ [CallClose 0 Undefined 2;
                                                     AcquireLate 0]))) ≤ 1)%nat.
Proof.
  apply (one_hook_per_close
           (state_after (one_handle ++ [CallClose 0 Undefined 2; AcquireLate 0])) 0%nat
           {| k_fn := 0; k_reason := Undefined; k_signal := None;
              k_hookPromise := Some CatchOfHook; k_closePromise := Pending;
              k_hook := Pending; k_caught := false; k_finally := false |}).
  - apply reachable_state_after. vm_compute. by eexists.
  - reflexivity.
Defined.

(** ** What the callers get *)

Lemma step_fulfilled_open e s s' o cv :
  step e s = Some s' → fulfilled_open s o cv → fulfilled_open s' o cv.
Proof.
  intros He (op & Ho & Hful).
  destruct (step_opens _ _ _ _ _ He Ho) as (op' & Ho' & Hp & _).
  exists op'. split; [done|]. rewrite Hp; [done|]. by rewrite Hful.
Qed.

Lemma step_handle_of e s s' h cv :
  step e s = Some s' → handle_of s h cv → handle_of s' h cv.
Proof.
  intros He (hd & Hh & Hv & Hc).
  destruct (step_handles _ _ _ _ _ He Hh) as (hd' & Hh' & Hv' & Hc' & _).
  exists hd'. split_and!; [done|congruence|congruence].
Qed.

Lemma step_open_outcome e s s' t o signal :
  open_outcome s t o signal → step e s = Some s' → open_outcome s' t o signal.
Proof.
  intros (tk & Ht & Hcase) He.
  destruct (step_tasks _ _ _ _ _ He Ht) as (tk' & Ht' & Hm).
  exists tk'. split; [done|].
  destruct Hcase as [-> | [(h & cv & -> & Hful & Hh) | (x & Hf & Hsrc)]].
  - destruct Hm as [-> | Hm]; [by left|]. simpl in Hm.
    destruct Hm as [(op & cv & h & Ho & Hful & -> & _ & Hh)
                   |[(op & x & Ho & Hrej & Hf)|(r & Hsig & Hf)]].
    + right; left. exists h, cv. split; [done|]. split.
      * eapply step_fulfilled_open; [done|]. by exists op.
      * by eexists.
    + right; right. exists x. split; [done|]. left.
      eapply step_rejected_open; [done|]. by exists op.
    + right; right. exists r. split; [done|]. right. by eapply step_signal_reason.
  - destruct Hm as [-> | Hm]; [|done]. right; left. exists h, cv.
    split; [done|]. split; [by eapply step_fulfilled_open|by eapply step_handle_of].
  - right; right. exists x. split; [by eapply failing_moves|].
    destruct Hsrc as [Hrej|Hsig]; [left; by eapply step_rejected_open|
                                   right; by eapply step_signal_reason].
Qed.

(** X9: a call of [open()] that awaits the open [o] at line 169 gets the
    outcome of [o] or its own cancellation, whatever happens meanwhile:
    after any run it is still waiting, or it has returned a handle whose
    value and close function are those [o] was fulfilled with (so all the
    callers that joined [o] share one value), or it is failing with the
    rejection of [o] or with the reason of its own signal. *)
Theorem open_gets_outcome_of_joined_open s es s' t o signal :
  tasks s !! t = Some (OpenAwaitOpen o signal) → run es s = Some s' →
  open_outcome s' t o signal.
Proof.
  intros Ht Hrun.
  eapply (run_invariant (λ s, open_outcome s t o signal)); [|by eexists; eauto|done].
  intros e s1 s2 Hout Hstep. by eapply step_open_outcome.
Qed.

Lemma open_gets_outcome_of_joined_open_witness :
  open_outcome (state_after two_handles) 1 0 None.
Proof.
  apply (open_gets_outcome_of_joined_open (state_after [CallOpen None; CallOpen None])
           [OpenerSettles 0 (inl conn); Resume 0 0; Resume 1 0]).
  - reflexivity.
  - vm_compute. reflexivity.
Defined.

Lemma step_close_outcome e s s' t k :
  close_outcome s t k → step e s = Some s' → close_outcome s' t k.
Proof.
  intros (tk & op & Ht & Hk & Hcase) He.
  destruct (step_tasks _ _ _ _ _ He Ht) as (tk' & Ht' & Hm).
  destruct (step_closes _ _ _ _ _ He Hk) as (op' & Hk' & _ & _ & _ & Hp & _).
  exists tk', op'. split; [done|]. split; [done|].
  destruct Hcase as [-> | [[-> Hful] | (x & -> & Hrej)]].
  - destruct Hm as [-> | Hm]; [by left|]. simpl in Hm.
    destruct Hm as (op0 & Hk0 & [[Hful ->]|(x & Hrej & ->)]); simplify_eq.
    + right; left. split; [done|]. rewrite Hp; [done|]. by rewrite Hful.
    + right; right. exists x. split; [done|]. rewrite Hp; [done|]. by rewrite Hrej.
  - destruct Hm as [-> | Hm]; [|done]. right; left. split; [done|].
    rewrite Hp; [done|]. by rewrite Hful.
  - destruct Hm as [-> | Hm]; [|done]. right; right. exists x. split; [done|].
    rewrite Hp; [done|]. by rewrite Hrej.
Qed.

(** X10: the [close()] of a handle that called [#close] settles as the
    promise the close function returned (line 132 returns [closePromise],
    not the chained [#closePromise]): after any run the call is still
    waiting, or has returned and that promise is fulfilled, or has thrown
    what that promise was rejected with.  It depends neither on the hook nor
    on the reactions of the close. *)
Theorem close_gets_outcome_of_close_function s es s' t k op :
  tasks s !! t = Some (CloseAwait k) → closes s !! k = Some op →
  run es s = Some s' →
  close_outcome s' t k.
Proof.
  intros Ht Hk Hrun.
  eapply (run_invariant (λ s, close_outcome s t k)); [| |done].
  - intros e s1 s2 Hout Hstep. by eapply step_close_outcome.
  - exists (CloseAwait k), op. eauto.
Qed.

Lemma close_gets_outcome_of_close_function_witness :
  close_outcome (state_after (closing ++ [CloseSettles 0 (Some boom); Resume 1 0])) 1 0.
Proof.
  apply (close_gets_outcome_of_close_function (state_after closing)
           [CloseSettles 0 (Some boom); Resume 1 0] _ _ _
           {| k_fn := 0; k_reason := Undefined; k_signal := None;
              k_hookPromise := Some CatchOfClose; k_closePromise := Pending;
              k_hook := Pending; k_caught := false; k_finally := false |}).
  - reflexivity.
  - reflexivity.
  - vm_compute. reflexivity.
Defined.

(** ** A whole episode *)

Lemma insert_snoc {A} (l : list A) (x y : A) : <[length l := y]> (l ++ [x]) = l ++ [y].
Proof. rewrite insert_app_r_alt by done. by rewrite Nat.sub_diag. Qed.

Lemma lookup_snoc2 {A} (l : list A) (x y : A) :
  ((l ++ [x]) ++ [y]) !! S (length l) = Some y.
Proof. rewrite <- (lookup_snoc (l ++ [x]) y). f_equal. rewrite length_app. simpl. lia. Qed.

Lemma insert_snoc2 {A} (l : list A) (x y z : A) :
  <[S (length l) := z]> ((l ++ [x]) ++ [y]) = (l ++ [x]) ++ [z].
Proof.
  rewrite <- (insert_snoc (l ++ [x]) y z). f_equal. rewrite length_app. simpl. lia.
Qed.

Lemma run_cons e es s s1 : step e s = Some s1 → run (e :: es) s = run es s1.
Proof. intros He. simpl. by rewrite He. Qed.

Ltac snoc_simpl :=
  repeat (progress (
    unfold set_task, set_tasks, spawn, set_this, set_opens, set_closes, set_handles,
      set_acquired, set_reported, set_close, set_open, set_count, set_k_closePromise,
      set_k_hook, set_k_caught, set_k_finally, set_closed, abort_open;
    simpl; rewrite ?lookup_snoc, ?lookup_snoc2, ?insert_snoc, ?insert_snoc2)).

Ltac episode_step tac :=
  etransitivity; [apply run_cons; tac; snoc_simpl; reflexivity|].

(** X11: open and close compose to a round trip, whatever the close
    function does with the hook.  From any state in which the counter is 0
    and the open and close slots are empty, one [open()] whose signal is not
    aborted calls the opener; once the opener fulfils the call returns a
    handle on its value; [close(reason)] of the handle calls the close
    function of the value with [reason]; of the calls of [acquireHook] this
    function makes before it returns the first is granted and the others
    refused; once the promise of the close function settles, fulfilled or
    rejected, the closing call settles the same way; once the hook, if
    taken, has settled too, the reactions of the close run and leave every
    field of the instance as the constructor sets it.  A rejection of the
    hook is reported; nothing else is. *)
Theorem open_close_round_trip s signal cv reason hooks r rh :
  count (this s) = 0 → openPromise (this s) = None → closePromise (this s) = None →
  signal_reason signal s = None →
  run (episode s signal cv reason hooks r rh) s
  = Some (after_episode s cv reason hooks r rh).
Proof.
  intros Hcount Hslot Hclose Hsig. unfold episode, after_episode, hook_events.
  destruct hooks as [|n], r as [error|], rh as [e|]; simpl app.
  all: episode_step ltac:(unfold step, open; rewrite Hsig, Hclose; unfold open_enter;
    simpl; rewrite Hslot, Hcount).
  all: episode_step ltac:(unfold step, opener_settles; snoc_simpl;
    rewrite decide_True by done).
  all: episode_step ltac:(unfold step, resume).
  all: episode_step ltac:(unfold step, handle_close; snoc_simpl; unfold close_;
    snoc_simpl; rewrite ?call_hooks_log).
  all: episode_step ltac:(unfold step, close_settles).
  all: episode_step ltac:(unfold step, resume).
  all: lazymatch goal with
       | |- run (HookSettles _ _ :: _) _ = _ =>
           episode_step ltac:(unfold step, hook_settles)
       | |- _ => idtac
       end.
  all: episode_step ltac:(unfold step, catch_reaction).
  all: episode_step ltac:(unfold step, finally_reaction).
  all: simpl; rewrite <- ?app_assoc, ?app_nil_r; reflexivity.
Qed.

Lemma open_close_round_trip_witness :
  run (episode (state_after closed_again) None conn (Data 1) 1 (Some boom) (Some (Data 5)))
      (state_after closed_again)
  = Some (after_episode (state_after closed_again) conn (Data 1) 1 (Some boom)
            (Some (Data 5))).
Proof.
  apply (open_close_round_trip (state_after closed_again) None conn (Data 1) 1%nat
           (Some boom) (Some (Data 5))).
  - reflexivity.
  - reflexivity.
  - reflexivity.
  - reflexivity.
Defined.

(** ** The cached value *)

Lemma cached_open_step e s s' o :
  slot_controller s → step e s = Some s' →
  openPromise (this s) = Some o → empties_slot o e = false →
  openPromise (this s') = Some o ∧ length (opens s') = length (opens s).
Proof.
  intros Hinv Hstep Hslot Hends.
  destruct e; step_inv Hstep; rewrite ?length_insert, ?length_alter;
    simplify_eq/=; try done.
  all: try match goal with
       | H : openController (this _) = Some ?c |- _ =>
           pose proof (Hinv _ _ Hslot H); simplify_eq
       end.
  all: try done.
  all: by rewrite bool_decide_true in Hends.
Qed.

Lemma cached_open_run es s s' o :
  slot_controller s → run es s = Some s' →
  openPromise (this s) = Some o → forallb (λ e, negb (empties_slot o e)) es = true →
  openPromise (this s') = Some o ∧ length (opens s') = length (opens s).
Proof.
  revert s. induction es as [|e es IH]; intros s Hinv Hrun Hslot Hes; simplify_eq/=.
  { done. }
  destruct (step e s) as [s1|] eqn:He; simplify_eq/=.
  apply andb_true_iff in Hes as [He1 Hes]. apply negb_true_iff in He1.
  destruct (cached_open_step _ _ _ _ Hinv He Hslot He1) as [Hslot1 Hlen1].
  destruct (IH s1) as [? ?]; [by eapply step_slot_controller|done..|].
  split; [done|congruence].
Qed.

(** X12: the value of an open stays cached.  From a reachable state whose
    open slot holds the open [o], a run in which no [.finally] reaction of a
    close runs and [o] is not rejected keeps [o] in the slot and never calls
    the opener: neither the fulfilment of [o], nor the calls of [open()] and
    of [close()], the cancellations, the start of a close or the [.catch]
    reaction of a close take [o] out of the slot. *)
Theorem open_slot_kept_until_close_ends s es s' o :
  reachable s → openPromise (this s) = Some o →
  forallb (λ e, negb (empties_slot o e)) es = true → run es s = Some s' →
  openPromise (this s') = Some o ∧ length (opens s') = length (opens s).
Proof.
  intros Hs Hslot Hes Hrun. eapply cached_open_run; [|done..].
  clear Hslot Hrun. revert s Hs. apply reachable_invariant.
  - by intros o' c Ho'.
  - intros e s1 s2. apply step_slot_controller.
Qed.

Lemma open_slot_kept_until_close_ends_witness :
  openPromise (this (state_after (one_handle ++
      [CallOpen None; Resume 1 0; CallClose 0 Undefined 0; CallClose 1 Undefined 0;
       CloseSettles 0 None; CatchReaction 0]))) = Some 0%nat
  ∧ length (opens (state_after (one_handle ++
      [CallOpen None; Resume 1 0; CallClose 0 Undefined 0; CallClose 1 Undefined 0;
       CloseSettles 0 None; CatchReaction 0])))
    = length (opens (state_after one_handle)).
Proof.
  apply (open_slot_kept_until_close_ends (state_after one_handle)
           [CallOpen None; Resume 1 0; CallClose 0 Undefined 0; CallClose 1 Undefined 0;
            CloseSettles 0 None; CatchReaction 0]).
  - apply reachable_state_after. vm_compute. by eexists.
  - reflexivity.
  - reflexivity.
  - vm_compute. reflexivity.
Defined.
